(** * Monte Carlo tree search and the tic-tac-toe board

    A shallow embedding of [monte_carlo_tree_search.py] (the search engine
    [MCTS] over the abstract [Node] interface) and of [tictactoe.py] (the
    concrete [TicTacToeBoard]), with the properties of the two proved on the
    embedding.

    Conventions of the embedding.
    - Python sets and dicts are stdpp's [gset] and [gmap]; iterating over a
      set is iterating over [elements].
    - [Q] and [N] are [defaultdict(int)]: a missing key reads as [0].  The
      program never inspects their key sets, so both are finite maps read
      through a zero default.
    - In the engine, rewards are exact rationals ([Qc]) and a visit count
      is a [nat].  [Binary64] embeds [_backpropagate] once more over
      Python's own numbers, ints and binary64 floats, for what depends on
      the rounding of floats.
    - An exception is a value of [exn]; [outcome] adds the case of a loop
      that has not finished within the fuel it was given.
    - Random draws ([random.choice], [set.pop]) are read from an oracle that
      the caller passes in. *)

From Stdlib Require Import QArith Qcanon.
From Stdlib Require SpecFloat.
From stdpp Require Import gmap list fin_maps.
From stdpp Require Import strings pretty.

Set Default Proof Using "Type".

(** ** Exceptions and outcomes *)

(** One constructor for every place of the two files that raises. *)
Inductive exn : Set :=
| ChooseOnTerminal    (* RuntimeError, MCTS.choose *)
| RandomChildIsNone   (* ValueError, MCTS._simulate *)
| UctAssertion        (* AssertionError, MCTS._uct_select *)
| LogDomain           (* ValueError, math.log of a non-positive number *)
| SqrtDomain          (* ValueError, math.sqrt of a negative number *)
| DivisionByZero      (* ZeroDivisionError *)
| MaxOfEmpty          (* ValueError, max() of an empty set *)
| IndexOutOfRange     (* IndexError *)
| MissingKey          (* KeyError, a dict read at an absent key *)
| PopFromEmpty        (* KeyError, set.pop() of an empty set *)
| RewardNonTerminal   (* RuntimeError, TicTacToeBoard.reward *)
| RewardUnreachable   (* RuntimeError, TicTacToeBoard.reward *)
| RewardUnknownWinner (* RuntimeError, TicTacToeBoard.reward *)
| IntTooLarge         (* OverflowError, an int too large to convert to float *).

Inductive outcome (A : Type) : Type :=
| Ok (a : A)
| Raise (e : exn)
| OutOfFuel.
Arguments Ok {A} a.
Arguments Raise {A} e.
Arguments OutOfFuel {A}.

Global Instance exn_eq_dec : EqDecision exn.
Proof. solve_decision. Defined.

Global Instance outcome_eq_dec {A} `{EqDecision A} : EqDecision (outcome A).
Proof. solve_decision. Defined.

Global Instance outcome_ret : MRet outcome := λ A a, Ok a.
Global Instance outcome_bind : MBind outcome := λ A B k m,
  match m with
  | Ok a => k a
  | Raise e => Raise e
  | OutOfFuel => OutOfFuel
  end.

(** ** Rationals *)

Definition Qc_of_nat (n : nat) : Qc := Qc_of_Z (Z.of_nat n).

Definition Qc_ltb (x y : Qc) : bool := negb (Qle_bool y x).

(** Python's [max(iterable, key=...)] over the keys already computed: the
    first element whose key is not exceeded by a later one. *)
Fixpoint max_from {A K} (ltb : K → K → bool) (best : A * K) (l : list (A * K)) : A :=
  match l with
  | [] => best.1
  | c :: l' => max_from ltb (if ltb best.2 c.2 then c else best) l'
  end.

Definition py_max {A K} (ltb : K → K → bool) (l : list (A * K)) : outcome A :=
  match l with
  | [] => Raise MaxOfEmpty
  | c :: l' => Ok (max_from ltb c l')
  end.

(** ** The search engine *)

Record mcts {State : Type} `{Countable State} : Type := MCTS {
  Q : gmap State Qc;                  (* total reward of each node *)
  N : gmap State nat;                 (* total visit count of each node *)
  children : gmap State (gset State)  (* children of each node *)
}.
Arguments mcts State {_ _}.
Arguments MCTS {State _ _} Q N children.

Global Instance mcts_eq_dec {State : Type} `{Countable State} :
  EqDecision (mcts State).
Proof. solve_decision. Defined.

(** What one [do_rollout] draws: the fuel granted to the loop of [_select],
    the element that [unexplored.pop()] yields, and the draws of
    [find_random_child] during the simulation (one per move). *)
Record oracle : Set := Oracle {
  select_fuel : nat;
  pop_choice : nat;
  playout : list nat
}.

Section Engine.
Context {State : Type} `{Countable State}.

(** The abstract class [Node]. *)
Variable find_children : State → outcome (gset State).
Variable find_random_child : State → nat → outcome (option State).
Variable is_terminal : State → bool.
Variable reward : State → outcome Qc.

(** [math.log] and [math.sqrt] where they are defined, and the
    exploration weight of the constructor. *)
Variable log : nat → Qc.
Variable sqrt : Qc → Qc.
Variable exploration_weight : Qc.

Definition fresh : mcts State := MCTS ∅ ∅ ∅.

Definition getQ (t : mcts State) (n : State) : Qc := default 0%Qc (Q t !! n).
Definition getN (t : mcts State) (n : State) : nat := default 0 (N t !! n).

(** The score of [choose]: [None] is [float("-inf")]. *)
Definition score (t : mcts State) (n : State) : option Qc :=
  if decide (getN t n = 0) then None
  else Some (getQ t n / Qc_of_nat (getN t n))%Qc.

Definition score_ltb (a b : option Qc) : bool :=
  match a, b with
  | None, None => false
  | None, Some _ => true
  | Some _, None => false
  | Some x, Some y => Qc_ltb x y
  end.

Definition choose (t : mcts State) (node : State) (rnd : nat)
  : outcome (option State) * mcts State :=
  if is_terminal node then (Raise ChooseOnTerminal, t)
  else match children t !! node with
       | None => (find_random_child node rnd, t)
       | Some cs =>
           (c ← py_max score_ltb (map (λ n, (n, score t n)) (elements cs)) ;
            Ok (Some c), t)
       end.

Definition py_log (n : nat) : outcome Qc :=
  if decide (n = 0) then Raise LogDomain else Ok (log n).

Definition py_div (x : Qc) (n : nat) : outcome Qc :=
  if decide (n = 0) then Raise DivisionByZero else Ok (x / Qc_of_nat n)%Qc.

Definition py_sqrt (x : Qc) : outcome Qc :=
  if Qc_ltb x 0 then Raise SqrtDomain else Ok (sqrt x).

Definition uct (t : mcts State) (log_N_vertex : Qc) (n : State) : outcome Qc :=
  avg ← py_div (getQ t n) (getN t n) ;
  ratio ← py_div log_N_vertex (getN t n) ;
  root ← py_sqrt ratio ;
  Ok (avg + exploration_weight * root)%Qc.

Definition _uct_select (t : mcts State) (node : State) : outcome State :=
  match children t !! node with
  | None => Raise MissingKey
  | Some cs =>
      if bool_decide (set_Forall (λ n, n ∈ dom (children t)) cs) then
        log_N_vertex ← py_log (getN t node) ;
        keys ← mapM (λ n, k ← uct t log_N_vertex n ; Ok (n, k)) (elements cs) ;
        py_max Qc_ltb keys
      else Raise UctAssertion
  end.

Definition unexplored (t : mcts State) (cs : gset State) : gset State :=
  cs ∖ dom (children t).

(** [s.pop()]: some element of [s], the one the oracle [k] points at. *)
Definition pop (k : nat) (s : gset State) : outcome State :=
  match elements s !! (k mod length (elements s)) with
  | Some n => Ok n
  | None => Raise PopFromEmpty
  end.

Fixpoint _select_loop (fuel : nat) (k : nat) (t : mcts State)
    (path : list State) (node : State) : outcome (list State) :=
  match fuel with
  | 0 => OutOfFuel
  | S fuel' =>
      let path := path ++ [node] in
      match children t !! node with
      | None => Ok path
      | Some cs =>
          if decide (cs = ∅) then Ok path
          else if decide (unexplored t cs = ∅) then
            node' ← _uct_select t node ;
            _select_loop fuel' k t path node'
          else
            n ← pop k (unexplored t cs) ;
            Ok (path ++ [n])
      end
  end.

Definition _select (fuel k : nat) (t : mcts State) (node : State)
  : outcome (list State) :=
  _select_loop fuel k t [] node.

Definition _expand (t : mcts State) (node : State) : outcome unit * mcts State :=
  match children t !! node with
  | Some _ => (Ok (), t)
  | None =>
      match find_children node with
      | Ok cs => (Ok (), MCTS (Q t) (N t) (<[node := cs]> (children t)))
      | Raise e => (Raise e, t)
      | OutOfFuel => (OutOfFuel, t)
      end
  end.

Fixpoint _simulate_loop (rnd : list nat) (node : State) (invert_reward : bool)
  : outcome Qc :=
  if is_terminal node then
    r ← reward node ; Ok (if invert_reward then 1 - r else r)%Qc
  else
    match rnd with
    | [] => OutOfFuel
    | x :: rnd' =>
        next_node ← find_random_child node x ;
        match next_node with
        | None => Raise RandomChildIsNone
        | Some next => _simulate_loop rnd' next (negb invert_reward)
        end
    end.

Definition _simulate (rnd : list nat) (node : State) : outcome Qc :=
  _simulate_loop rnd node true.

(** The body of the loop of [_backpropagate]. *)
Definition record (node : State) (r : Qc) (t : mcts State) : mcts State :=
  MCTS (<[node := (getQ t node + r)%Qc]> (Q t))
       (<[node := getN t node + 1]> (N t))
       (children t).

Definition _backpropagate (path : list State) (r : Qc) (t : mcts State)
  : mcts State :=
  (foldl (λ acc node, (record node acc.2 acc.1, (1 - acc.2)%Qc))
         (t, r) (reverse path)).1.
End Engine.

Section Rollout.
Context {State : Type} `{Countable State}.
Variable find_children : State → outcome (gset State).
Variable find_random_child : State → nat → outcome (option State).
Variable is_terminal : State → bool.
Variable reward : State → outcome Qc.
Variable log : nat → Qc.
Variable sqrt : Qc → Qc.
Variable exploration_weight : Qc.

Definition do_rollout (t : mcts State) (node : State) (o : oracle)
  : outcome unit * mcts State :=
  match _select log sqrt exploration_weight (select_fuel o) (pop_choice o) t node with
  | Ok path =>
      match last path with
      | None => (Raise IndexOutOfRange, t)
      | Some leaf =>
          match _expand find_children t leaf with
          | (Ok _, t1) =>
              match _simulate find_random_child is_terminal reward (playout o) leaf with
              | Ok r => (Ok (), _backpropagate path r t1)
              | Raise e => (Raise e, t1)
              | OutOfFuel => (OutOfFuel, t1)
              end
          | (Raise e, t1) => (Raise e, t1)
          | (OutOfFuel, t1) => (OutOfFuel, t1)
          end
      end
  | Raise e => (Raise e, t)
  | OutOfFuel => (OutOfFuel, t)
  end.

(** A caller's loop [for ...: tree.do_rollout(node)], stopped by the first
    call that does not return. *)
Fixpoint do_rollouts (t : mcts State) (calls : list (State * oracle))
  : outcome unit * mcts State :=
  match calls with
  | [] => (Ok (), t)
  | (node, o) :: calls' =>
      match do_rollout t node o with
      | (Ok _, t') => do_rollouts t' calls'
      | (Raise e, t') => (Raise e, t')
      | (OutOfFuel, t') => (OutOfFuel, t')
      end
  end.
End Rollout.

(** ** The tic-tac-toe board *)

Record TicTacToeBoard : Set := Board {
  tup : list (option bool);
  turn : bool;
  winner : option bool;
  terminal : bool
}.

Global Instance TicTacToeBoard_eq_dec : EqDecision TicTacToeBoard.
Proof. solve_decision. Defined.

Global Instance TicTacToeBoard_countable : Countable TicTacToeBoard.
Proof.
  refine (inj_countable'
    (λ b, (tup b, turn b, winner b, terminal b))
    (λ p, Board p.1.1.1 p.1.1.2 p.1.2 p.2) _).
  by intros [].
Defined.

Module TicTacToe.

(** [l[:i]] and [l[j:]] for a Python int, negative ones counted from the
    end and both clamped to the length. *)
Definition clamp (len : nat) (i : Z) : nat :=
  if (i <? 0)%Z then Z.to_nat (Z.max 0 (i + Z.of_nat len))
  else Z.to_nat (Z.min i (Z.of_nat len)).

Definition slice_to {A} (l : list A) (i : Z) : list A :=
  take (clamp (length l) i) l.

Definition slice_from {A} (l : list A) (j : Z) : list A :=
  drop (clamp (length l) j) l.

Definition py_index {A} (l : list A) (i : nat) : outcome A :=
  match l !! i with
  | Some x => Ok x
  | None => Raise IndexOutOfRange
  end.

Definition _winning_combos : list (nat * nat * nat) :=
  map (λ start, (start, start + 1, start + 2)) [0; 3; 6]
  ++ map (λ start, (start, start + 3, start + 6)) [0; 1; 2]
  ++ [(0, 4, 8)] ++ [(2, 4, 6)].

(** [x is v1 is v2 is v3] *)
Definition all_is (x v1 v2 v3 : option bool) : bool :=
  bool_decide (x = v1) && bool_decide (v1 = v2) && bool_decide (v2 = v3).

Fixpoint _find_winner_loop (tup : list (option bool))
    (combos : list (nat * nat * nat)) : outcome (option bool) :=
  match combos with
  | [] => Ok None
  | (i1, i2, i3) :: combos' =>
      v1 ← py_index tup i1 ;
      v2 ← py_index tup i2 ;
      v3 ← py_index tup i3 ;
      if all_is (Some false) v1 v2 v3 then Ok (Some false)
      else if all_is (Some true) v1 v2 v3 then Ok (Some true)
      else _find_winner_loop tup combos'
  end.

Definition _find_winner (tup : list (option bool)) : outcome (option bool) :=
  _find_winner_loop tup _winning_combos.

Definition make_move (self : TicTacToeBoard) (index : Z) : outcome TicTacToeBoard :=
  let tup' := slice_to (tup self) index ++ [Some (turn self)]
              ++ slice_from (tup self) (index + 1) in
  let turn' := negb (turn self) in
  winner' ← _find_winner tup' ;
  let is_terminal :=
    bool_decide (winner' ≠ None) || negb (existsb (λ v, bool_decide (v = None)) tup') in
  Ok (Board tup' turn' winner' is_terminal).

(** [[i for i, value in enumerate(self.tup) if value is None]] *)
Definition empty_spots (self : TicTacToeBoard) : list Z :=
  omap (λ p : nat * option bool,
          if bool_decide (p.2 = None) then Some (Z.of_nat p.1) else None)
       (imap pair (tup self)).

Definition find_children (self : TicTacToeBoard) : outcome (gset TicTacToeBoard) :=
  if terminal self then Ok ∅
  else bs ← mapM (make_move self) (empty_spots self) ; Ok (list_to_set bs).

(** [random.choice(seq)] with the draw [rnd]. *)
Definition choice {A} (rnd : nat) (seq : list A) : outcome A :=
  match seq !! (rnd mod length seq) with
  | Some x => Ok x
  | None => Raise IndexOutOfRange
  end.

Definition find_random_child (self : TicTacToeBoard) (rnd : nat)
  : outcome (option TicTacToeBoard) :=
  if terminal self then Ok None
  else i ← choice rnd (empty_spots self) ; b ← make_move self i ; Ok (Some b).

(** Python's truth value of [None], [False] and [True]. *)
Definition truthy (v : option bool) : bool :=
  match v with Some true => true | _ => false end.

Definition reward (self : TicTacToeBoard) : outcome Qc :=
  if negb (terminal self) then Raise RewardNonTerminal
  else if bool_decide (winner self = Some (turn self)) then Raise RewardUnreachable
  else if bool_decide (turn self = negb (truthy (winner self))) then Ok 0%Qc
  else if bool_decide (winner self = None) then Ok (Q2Qc (1 # 2))
  else Raise RewardUnknownWinner.

Definition is_terminal (self : TicTacToeBoard) : bool := terminal self.

Definition new_tic_tac_toe_board : TicTacToeBoard :=
  Board (replicate 9 None) true None false.

End TicTacToe.

(** ** Specification-level notions *)

Definition unit_interval (r : Qc) : Prop := (0 ≤ r ∧ r ≤ 1)%Qc.

Section Ghost.
Context {State : Type} `{Countable State}.
Variable find_children : State → outcome (gset State).
Variable find_random_child : State → nat → outcome (option State).
Variable is_terminal : State → bool.
Variable reward : State → outcome Qc.
Variable log : nat → Qc.
Variable sqrt : Qc → Qc.
Variable exploration_weight : Qc.

(** The visits that [_backpropagate] records for the nodes of [l], read
    from the leaf upwards: the node and the reward recorded for it. *)
Fixpoint flips (r : Qc) (l : list State) : list (State * Qc) :=
  match l with
  | [] => []
  | n :: l' => (n, r) :: flips (1 - r)%Qc l'
  end.

Definition recorded (path : list State) (r : Qc) : list (State * Qc) :=
  flips r (reverse path).

(** Recording the visits [vs] one after the other. *)
Definition record_all (vs : list (State * Qc)) (t : mcts State) : mcts State :=
  foldl (λ acc v, record v.1 v.2 acc) t vs.

(** The sum of the rewards that the visits [vs] record for [s]. *)
Definition reward_sum (s : State) (vs : list (State * Qc)) : Qc :=
  foldr (λ v acc, if decide (v.1 = s) then (v.2 + acc)%Qc else acc) 0%Qc vs.

(** A random playout from [s]: [k] moves drawn from [rnd] lead to the
    terminal state [s']. *)
Inductive walk : list nat → State → nat → State → Prop :=
| walk_here rnd s :
    is_terminal s = true → walk rnd s 0 s
| walk_move x rnd s next k s' :
    is_terminal s = false →
    find_random_child s x = Ok (Some next) →
    walk rnd next k s' →
    walk (x :: rnd) s (S k) s'.

(** The condition under which the loop of [_select] calls [_uct_select]
    on [node]. *)
Definition uct_invoked (t : mcts State) (node : State) : Prop :=
  ∃ cs, children t !! node = Some cs ∧ cs ≠ ∅ ∧ unexplored t cs = ∅.

(** Every expanded node has been visited. *)
Definition expanded_visited (t : mcts State) : Prop :=
  ∀ s, s ∈ dom (children t) → 1 ≤ getN t s.

(** Every total reward lies between [0] and the visit count. *)
Definition bounded (t : mcts State) : Prop :=
  ∀ s, (0 ≤ getQ t s ∧ getQ t s ≤ Qc_of_nat (getN t s))%Qc.

(** The order of the scores of [choose], [None] below every number. *)
Definition score_le (a b : option Qc) : Prop :=
  match a, b with
  | None, _ => True
  | Some _, None => False
  | Some x, Some y => (x ≤ y)%Qc
  end.

(** The selection path and the simulated reward of the rollout that
    [do_rollout t node o] performs. *)
Definition rollout_path (t : mcts State) (node : State) (o : oracle)
  : outcome (list State) :=
  _select log sqrt exploration_weight (select_fuel o) (pop_choice o) t node.

Definition rollout_reward (t : mcts State) (node : State) (o : oracle)
  : outcome Qc :=
  path ← rollout_path t node o ;
  match last path with
  | None => Raise IndexOutOfRange
  | Some leaf => _simulate find_random_child is_terminal reward (playout o) leaf
  end.


(** The engine states that complete rollouts lead to from a fresh engine. *)
Inductive reachable : mcts State → Prop :=
| reachable_fresh : reachable fresh
| reachable_rollout t node o t' :
    reachable t →
    do_rollout find_children find_random_child is_terminal
      reward log sqrt exploration_weight t node o = (Ok (), t') →
    reachable t'.
End Ghost.

Module TicTacToeSpec.
Import TicTacToe.

(** A sequence of [make_move] calls, each on the board the previous one
    returned. *)
Fixpoint play (self : TicTacToeBoard) (indices : list Z) : outcome TicTacToeBoard :=
  match indices with
  | [] => Ok self
  | i :: indices' => b ← make_move self i ; play b indices'
  end.

(** The moves of the game: an empty cell of a board that is not terminal,
    which are the moves [find_children] and [find_random_child] make. *)
Definition legal (self : TicTacToeBoard) (index : Z) : Prop :=
  terminal self = false ∧ index ∈ empty_spots self.

Inductive legal_play : TicTacToeBoard → list Z → TicTacToeBoard → Prop :=
| legal_play_nil b : legal_play b [] b
| legal_play_cons b i b' indices b'' :
    legal b i → make_move b i = Ok b' → legal_play b' indices b'' →
    legal_play b (i :: indices) b''.

Definition filled (tup : list (option bool)) : nat :=
  length (filter (λ v, v ≠ None) tup).

(** The three cells of the combination [c] all hold the mark of [p]. *)
Definition line (tup : list (option bool)) (p : bool) (c : nat * nat * nat) : Prop :=
  tup !! c.1.1 = Some (Some p) ∧ tup !! c.1.2 = Some (Some p)
  ∧ tup !! c.2 = Some (Some p).

(** What holds of every board of a game: nine cells, [X] (which is [True])
    to move when an even number of cells is filled, [winner] and
    [terminal] as [make_move] computes them, and a winner who is the
    player that has just moved. *)
Record well_formed (b : TicTacToeBoard) : Prop := WellFormed {
  wf_length : length (tup b) = 9;
  wf_turn : turn b = Nat.even (filled (tup b));
  wf_winner : _find_winner (tup b) = Ok (winner b);
  wf_terminal :
    terminal b = bool_decide (winner b ≠ None)
                 || negb (existsb (λ v, bool_decide (v = None)) (tup b));
  wf_last_mover : ∀ w, winner b = Some w → w = negb (turn b)
}.

(** The reward the game assigns to a finished board. *)
Definition outcome_reward (self : TicTacToeBoard) : Qc :=
  match winner self with
  | Some _ => 0%Qc
  | None => Q2Qc (1 # 2)
  end.
End TicTacToeSpec.

(** ** The engine on the tic-tac-toe board *)

Module Example.
Import TicTacToe TicTacToeSpec.

(** Stand-ins for [math.log] and [math.sqrt] with rational values. *)
Definition log2 (n : nat) : Qc := Qc_of_nat (Nat.log2 n).
Definition isqrt (x : Qc) : Qc := Qc_of_Z (Z.sqrt (Qnum x / Z.pos (Qden x))).

Definition rollouts :=
  do_rollouts find_children find_random_child is_terminal reward log2 isqrt 1%Qc.


Definition X : option bool := Some true.
Definition O : option bool := Some false.
Definition e : option bool := None.

(** [X] has completed the top row with the fifth move of the game. *)
Definition x_wins : TicTacToeBoard :=
  Board [X; X; X; O; O; e; e; e; e] false X true.

(** [make_move(5)] on [x_wins]: [O] plays on after the game has ended. *)
Definition o_plays_on : TicTacToeBoard :=
  Board [X; X; X; O; O; O; e; e; e] true X true.

(** Seven moves into a game, [O] to move: the edge (cell 7) loses, the
    corner (cell 8) draws. *)
Definition endgame : TicTacToeBoard :=
  Board [X; O; X; O; X; X; O; e; e] false None false.

(** The [k]-th call of a series of rollouts on [endgame], with its draws. *)
Definition call (k : nat) : TicTacToeBoard * oracle :=
  (endgame, Oracle 5 k [k; k]).

Definition calls (n : nat) : list (TicTacToeBoard * oracle) := map call (seq 0 n).

Definition after (n : nat) : mcts TicTacToeBoard := (rollouts fresh (calls n)).2.
End Example.

(** ** Rendering a board *)

Module Rendering.
Import TicTacToe.
Import Stdlib.Strings.Ascii.

Definition newline : string := String "010"%char "".

(** [to_char], the lambda of [to_pretty_string]. *)
Definition to_char (v : option bool) : string :=
  match v with
  | Some true => "X"
  | Some false => "O"
  | None => " "
  end.

(** [sep.join(strings)] *)
Definition join (sep : string) (strings : list string) : string :=
  String.concat sep strings.

Definition rows (self : TicTacToeBoard) : outcome (list (list string)) :=
  mapM (λ row, mapM (λ col, v ← py_index (tup self) (3 * row + col) ;
                             Ok (to_char v))
                    (seq 0 3))
       (seq 0 3).

Definition to_pretty_string (self : TicTacToeBoard) : outcome string :=
  rows ← rows self ;
  Ok (newline +:+ "  1 2 3" +:+ newline
      +:+ join newline
            (imap (λ i row, pretty (i + 1) +:+ " " +:+ join " " row) rows)
      +:+ newline).

(** The character that [to_char] returns. *)
Definition mark (v : option bool) : ascii :=
  match v with
  | Some true => "X"%char
  | Some false => "O"%char
  | None => " "%char
  end.
End Rendering.


(** ** Further boards and calls *)

Module FurtherExample.
Import TicTacToe TicTacToeSpec Example.


(** [X] to move, and to win at cell 8. *)
Definition x_to_win : TicTacToeBoard :=
  Board [X; O; X; O; X; X; O; O; e] true None false.

Definition x_has_won : TicTacToeBoard :=
  Board [X; O; X; O; X; X; O; O; X] false X true.

Definition after_win : mcts TicTacToeBoard :=
  (rollouts fresh [(x_to_win, Oracle 10 0 [0]); (x_to_win, Oracle 10 0 [0])]).2.

(** Calls on [endgame] with ten rounds of selection and nine draws. *)
Definition game_calls (n : nat) : list (TicTacToeBoard * oracle) :=
  map (λ k, (endgame, Oracle 10 k (replicate 9 k))) (seq 0 n).

Definition selected : list TicTacToeBoard :=
  match _select log2 isqrt 1%Qc 5 0 (after 4) endgame with
  | Ok path => path
  | _ => []
  end.

Definition uct_choice : TicTacToeBoard :=
  match _uct_select log2 isqrt 1%Qc (after 4) endgame with
  | Ok c => c
  | _ => endgame
  end.

(** The number of empty cells of a board of nine cells. *)
Definition empty_cells (b : TicTacToeBoard) : nat := 9 - filled (tup b).
End FurtherExample.

(** ** Backpropagation over Python's numbers

    [Q] is a [defaultdict(int)] and [reward] is annotated [float]: the
    values that [_backpropagate] adds up and flips are Python numbers, an
    [int] (of any size, exact) or a [float] (IEEE 754 binary64, every
    operation rounded to the nearest, ties to even).  This module embeds
    [_backpropagate] over these numbers, for the properties that depend on
    the rounding; the operations on binary64 are those of [SpecFloat].
    As in the engine, [Q] and [N] are read through a zero default. *)
Module Binary64.
Import SpecFloat.

Definition prec : Z := 53.
Definition emax : Z := 1024.

Inductive number : Set :=
| Int (z : Z)             (* an int; a bool counts as the int 0 or 1 *)
| Float (f : spec_float)  (* a float *).

Global Instance spec_float_eq_dec : EqDecision spec_float.
Proof. solve_decision. Defined.

Global Instance number_eq_dec : EqDecision number.
Proof. solve_decision. Defined.

(** The conversion of an int operand of mixed arithmetic: the nearest
    float, and [OverflowError] when that is beyond the largest one. *)
Definition float_of_int (z : Z) : outcome spec_float :=
  match binary_normalize prec emax z 0 false with
  | S754_infinity _ => Raise IntTooLarge
  | f => Ok f
  end.

(** [a + b] *)
Definition py_add (a b : number) : outcome number :=
  match a, b with
  | Int x, Int y => Ok (Int (x + y))
  | Int x, Float g => f ← float_of_int x ; Ok (Float (SFadd prec emax f g))
  | Float f, Int y => g ← float_of_int y ; Ok (Float (SFadd prec emax f g))
  | Float f, Float g => Ok (Float (SFadd prec emax f g))
  end.

(** [a - b] *)
Definition py_sub (a b : number) : outcome number :=
  match a, b with
  | Int x, Int y => Ok (Int (x - y))
  | Int x, Float g => f ← float_of_int x ; Ok (Float (SFsub prec emax f g))
  | Float f, Int y => g ← float_of_int y ; Ok (Float (SFsub prec emax f g))
  | Float f, Float g => Ok (Float (SFsub prec emax f g))
  end.

Record mcts {State : Type} `{Countable State} : Type := MCTS {
  Q : gmap State number;              (* total reward of each node *)
  N : gmap State nat;                 (* total visit count of each node *)
  children : gmap State (gset State)  (* children of each node *)
}.
Arguments mcts State {_ _}.
Arguments MCTS {State _ _} Q N children.

Global Instance mcts_eq_dec {State : Type} `{Countable State} :
  EqDecision (mcts State).
Proof. solve_decision. Defined.

Section Backpropagation.
Context {State : Type} `{Countable State}.

Definition fresh : mcts State := MCTS ∅ ∅ ∅.

Definition getQ (t : mcts State) (n : State) : number :=
  default (Int 0) (Q t !! n).
Definition getN (t : mcts State) (n : State) : nat := default 0 (N t !! n).

(** [self.N[node] += 1] *)
Definition visit (node : State) (t : mcts State) : mcts State :=
  MCTS (Q t) (<[node := getN t node + 1]> (N t)) (children t).

(** [self.Q[node] += reward] *)
Definition add_reward (node : State) (reward : number) (t : mcts State)
  : outcome unit * mcts State :=
  match py_add (getQ t node) reward with
  | Ok q => (Ok (), MCTS (<[node := q]> (Q t)) (N t) (children t))
  | Raise e => (Raise e, t)
  | OutOfFuel => (OutOfFuel, t)
  end.

(** The loop of [_backpropagate] over the nodes still to be visited. *)
Fixpoint _backpropagate_loop (nodes : list State) (reward : number)
    (t : mcts State) : outcome unit * mcts State :=
  match nodes with
  | [] => (Ok (), t)
  | node :: nodes' =>
      match add_reward node reward (visit node t) with
      | (Ok _, t') =>
          match py_sub (Int 1) reward with
          | Ok reward' => _backpropagate_loop nodes' reward' t'
          | Raise e => (Raise e, t')
          | OutOfFuel => (OutOfFuel, t')
          end
      | failed => failed
      end
  end.

Definition _backpropagate (path : list State) (reward : number)
    (t : mcts State) : outcome unit * mcts State :=
  _backpropagate_loop (reverse path) reward t.

(** The engine once [node] has been visited and its total set to [q]. *)
Definition visited_with (node : State) (q : number) (t : mcts State)
  : mcts State :=
  MCTS (<[node := q]> (Q t)) (<[node := getN t node + 1]> (N t)) (children t).
End Backpropagation.

(** The floats [0.0], [0.5], [1.0] and [0.1] (the float nearest to one
    tenth). *)
Definition zero : spec_float := S754_zero false.
Definition half : spec_float := S754_finite false 4503599627370496 (-53).
Definition one : spec_float := S754_finite false 4503599627370496 (-52).
Definition tenth : spec_float := S754_finite false 7205759403792794 (-56).

(** [0.75] and [0.25] *)
Definition three_quarters : spec_float :=
  S754_finite false 6755399441055744 (-53).
Definition quarter : spec_float := S754_finite false 4503599627370496 (-54).

(** The float [0.09999999999999998], two units in the last place below
    [tenth]. *)
Definition below_tenth : spec_float :=
  S754_finite false 7205759403792792 (-56).

(** The floats from [0.5] up to [1.0], the latter left out: 53 binary
    digits, the first of them a one, scaled by [2 ^ -53]. *)
Definition upper_half (f : spec_float) : Prop :=
  ∃ m, f = S754_finite false m (-53) ∧ (2 ^ 52 ≤ Z.pos m < 2 ^ 53)%Z.

(** A number within the range where every int is a float: a float, or an
    int below [2 ^ 53] in absolute value. *)
Definition small (a : number) : Prop :=
  match a with
  | Int z => (Z.abs z < 2 ^ 53)%Z
  | Float _ => True
  end.

(** The path that selection takes on [endgame] after four rollouts: [O]
    takes the corner, [X] fills the board, a draw. *)
Definition o_corner : TicTacToeBoard :=
  Board [Example.X; Example.O; Example.X; Example.O; Example.X; Example.X;
         Example.O; Example.e; Example.O] true None false.

Definition drawn : TicTacToeBoard :=
  Board [Example.X; Example.O; Example.X; Example.O; Example.X; Example.X;
         Example.O; Example.X; Example.O] false None true.
End Binary64.

(** ** Outcomes and [max] *)

Lemma bind_Ok {A B} (m : outcome A) (k : A → outcome B) b :
  m ≫= k = Ok b ↔ ∃ a, m = Ok a ∧ k a = Ok b.
Proof.
  destruct m as [a| |]; simpl; (split; [intros Hk|intros (a' & Ha & Hk)]);
    try discriminate.
  - by exists a.
  - by injection Ha as ->.
Qed.

Lemma bind_Raise {A B} (m : outcome A) (k : A → outcome B) e :
  m ≫= k = Raise e ↔ m = Raise e ∨ ∃ a, m = Ok a ∧ k a = Raise e.
Proof.
  destruct m as [a| |]; simpl;
    (split; [intros Hk|intros [Hk|(a' & Ha & Hk)]]); try discriminate.
  - right. by exists a.
  - by injection Ha as ->.
  - left. by injection Hk as ->.
  - by injection Hk as ->.
Qed.

Lemma mapM_Raise {A B} (f : A → outcome B) (l : list A) e :
  mapM f l = Raise e → ∃ a, a ∈ l ∧ f a = Raise e.
Proof.
  induction l as [|a l IH]; simpl; [done|].
  intros [Ha|(b & Hb & [Hl|(bs & _ & ?)]%bind_Raise)]%bind_Raise; [| |done].
  - exists a. split; [left|done].
  - destruct (IH Hl) as (a' & ? & ?). exists a'. split; [by right|done].
Qed.

Lemma mapM_Ok_tagged {A B} (f : A → outcome B) (l : list A) bs :
  mapM (λ a, f a ≫= λ b, Ok (a, b)) l = Ok bs → bs.*1 = l.
Proof.
  revert bs. induction l as [|a l IH]; simpl; intros bs.
  - by intros [= <-].
  - intros (b & (b' & _ & [= <-])%bind_Ok & (bs' & Hl & [= <-])%bind_Ok)%bind_Ok.
    rewrite fmap_cons. simpl. by rewrite (IH _ Hl).
Qed.

Lemma max_from_elem {A K} (ltb : K → K → bool) (best : A * K) l :
  max_from ltb best l ∈ (best :: l).*1.
Proof.
  revert best. induction l as [|c l IH]; intros best; simpl.
  - left.
  - specialize (IH (if ltb best.2 c.2 then c else best)).
    destruct (ltb best.2 c.2); simpl in *.
    + by right.
    + apply elem_of_cons in IH as [->|?]; [left|by do 2 right].
Qed.

Lemma py_max_elem {A K} (ltb : K → K → bool) (l : list (A * K)) a :
  py_max ltb l = Ok a → a ∈ l.*1.
Proof.
  destruct l as [|c l]; simpl; [done|]. intros [= <-]. apply max_from_elem.
Qed.

(** ** Rewards in the unit interval *)

Lemma Qc_of_nat_succ n : Qc_of_nat (n + 1) = (Qc_of_nat n + 1)%Qc.
Proof.
  unfold Qc_of_nat. by rewrite Nat2Z.inj_add, Z2Qc_inj_add.
Qed.

Lemma Qc_of_nat_pos n : 0 < n → (0 < Qc_of_nat n)%Qc.
Proof.
  intros Hn. unfold Qc_of_nat.
  pose proof (proj1 (Z2Qc_inj_lt 0 (Z.of_nat n))) as Hlt.
  rewrite Z2Qc_inj_0 in Hlt. apply Hlt. lia.
Qed.

Lemma unit_interval_flip r : unit_interval r → unit_interval (1 - r)%Qc.
Proof.
  intros [H0 H1]. split.
  - by apply Qcle_minus_iff in H1.
  - apply Qcle_minus_iff. by replace (1 + - (1 - r))%Qc with r by ring.
Qed.

Lemma Qc_div_unit_interval (q d : Qc) :
  (0 ≤ q)%Qc → (q ≤ d)%Qc → (0 < d)%Qc → unit_interval (q / d)%Qc.
Proof.
  intros H0 Hd Hpos. pose proof (Qcinv_pos _ Hpos) as Hinv.
  unfold Qcdiv. split.
  - apply Qcmult_nonneg_nonneg; [done|]. by apply Qclt_le_weak.
  - rewrite <- (Qcmult_inv_r d) by (symmetry; by apply Qclt_not_eq).
    apply Qcmult_le_mono_nonneg_r; [|done]. by apply Qclt_le_weak.
Qed.

Lemma Qc_ltb_false x y : Qc_ltb x y = false ↔ (y ≤ x)%Qc.
Proof.
  unfold Qc_ltb. rewrite negb_false_iff. apply Qle_bool_iff.
Qed.

Lemma Qc_ltb_true x y : Qc_ltb x y = true → (x ≤ y)%Qc.
Proof.
  intros Hlt. destruct (Qclt_le_dec x y) as [?|Hle]; [by apply Qclt_le_weak|].
  apply Qc_ltb_false in Hle. congruence.
Qed.

(** ** Properties of the engine *)

Section EngineProperties.
Context {State : Type} `{Countable State}.
Variable find_children : State → outcome (gset State).
Variable find_random_child : State → nat → outcome (option State).
Variable is_terminal : State → bool.
Variable reward : State → outcome Qc.
Variable log : nat → Qc.
Variable sqrt : Qc → Qc.
Variable exploration_weight : Qc.

Implicit Types (t : mcts State) (node s : State) (path : list State) (r : Qc).

(** *** The statistics store *)

Lemma getN_record t node r s :
  getN (record node r t) s = if decide (node = s) then getN t s + 1 else getN t s.
Proof.
  unfold getN, record; simpl. case_decide as Hs.
  - subst. by rewrite lookup_insert_eq.
  - by rewrite lookup_insert_ne.
Qed.

Lemma getQ_record t node r s :
  getQ (record node r t) s
  = if decide (node = s) then (getQ t s + r)%Qc else getQ t s.
Proof.
  unfold getQ, record; simpl. case_decide as Hs.
  - subst. by rewrite lookup_insert_eq.
  - by rewrite lookup_insert_ne.
Qed.

Lemma children_record t node r : children (record node r t) = children t.
Proof. done. Qed.

(** *** Backpropagation *)

Lemma backpropagate_fold l r t :
  (foldl (λ acc node, (record node acc.2 acc.1, (1 - acc.2)%Qc)) (t, r) l).1
  = record_all (flips r l) t.
Proof.
  revert r t. induction l as [|n l IH]; intros r t; simpl; [done|].
  by rewrite IH.
Qed.

Lemma backpropagate_recorded path r t :
  _backpropagate path r t = record_all (recorded path r) t.
Proof. apply backpropagate_fold. Qed.

Lemma backpropagate_snoc path node r t :
  _backpropagate (path ++ [node]) r t
  = _backpropagate path (1 - r)%Qc (record node r t).
Proof.
  rewrite !backpropagate_recorded. unfold recorded.
  by rewrite reverse_snoc.
Qed.

Lemma children_record_all vs t : children (record_all vs t) = children t.
Proof.
  revert t. induction vs as [|v vs IH]; intros t; simpl; [done|].
  by rewrite IH.
Qed.

Lemma children_backpropagate path r t :
  children (_backpropagate path r t) = children t.
Proof. rewrite backpropagate_recorded. apply children_record_all. Qed.

(** *** Expansion *)

Lemma expand_children t node t' :
  _expand find_children t node = (Ok (), t') →
  Q t' = Q t ∧ N t' = N t ∧ node ∈ dom (children t')
  ∧ ∀ s, s ≠ node → children t' !! s = children t !! s.
Proof.
  unfold _expand. destruct (children t !! node) as [cs|] eqn:Hn.
  - intros [= <-]. do 2 (split; [done|]). split; [|done].
    apply elem_of_dom. eauto.
  - destruct (find_children node) as [cs| |]; intros [= <-]; simpl.
    do 2 (split; [done|]). split.
    + rewrite dom_insert_L. apply elem_of_union_l, elem_of_singleton_2. done.
    + intros s Hs. by rewrite lookup_insert_ne.
Qed.

(** *** Simulation *)

Lemma simulate_loop_walk rnd s k s' r inv :
  walk find_random_child is_terminal rnd s k s' →
  reward s' = Ok r →
  _simulate_loop find_random_child is_terminal reward rnd s inv
  = Ok (if xorb inv (Nat.odd k) then 1 - r else r)%Qc.
Proof.
  intros Hw Hr. revert inv.
  induction Hw as [rnd s Ht | x rnd s next k s' Ht Hc Hw IH]; intros inv.
  - destruct rnd; simpl; rewrite Ht, Hr; simpl; by destruct inv.
  - simpl. rewrite Ht, Hc. simpl. rewrite IH by done.
    rewrite Nat.odd_succ, <- Nat.negb_odd. by destruct inv, (Nat.odd k).
Qed.

Lemma walk_terminal rnd s k s' :
  walk find_random_child is_terminal rnd s k s' → is_terminal s' = true.
Proof. by induction 1. Qed.

Lemma simulate_loop_returns rnd s inv v :
  _simulate_loop find_random_child is_terminal reward rnd s inv = Ok v →
  ∃ k s' r,
    walk find_random_child is_terminal rnd s k s'
    ∧ reward s' = Ok r
    ∧ v = (if xorb inv (Nat.odd k) then 1 - r else r)%Qc.
Proof.
  assert (∀ rnd s inv, is_terminal s = true →
            _simulate_loop find_random_child is_terminal reward rnd s inv = Ok v →
            ∃ r, reward s = Ok r ∧ v = (if inv then 1 - r else r)%Qc) as Hterm.
  { intros rnd' s0 inv0 Ht. destruct rnd'; simpl; rewrite Ht;
      intros (r & Hr & [= <-])%bind_Ok; by exists r. }
  revert s inv. induction rnd as [|x rnd IH]; intros s inv Hv;
    destruct (is_terminal s) eqn:Ht.
  - destruct (Hterm _ _ _ Ht Hv) as (r & Hr & ->).
    exists 0, s, r. split; [by constructor|]. by rewrite xorb_false_r.
  - simpl in Hv. by rewrite Ht in Hv.
  - destruct (Hterm _ _ _ Ht Hv) as (r & Hr & ->).
    exists 0, s, r. split; [by constructor|]. by rewrite xorb_false_r.
  - simpl in Hv. rewrite Ht in Hv.
    apply bind_Ok in Hv as ([next|] & Hnext & Hloop); [|done].
    destruct (IH _ _ Hloop) as (k & s' & r & Hw & Hr & ->).
    exists (S k), s', r. split; [by econstructor|]. split; [done|].
    rewrite Nat.odd_succ, <- Nat.negb_odd. by destruct inv, (Nat.odd k).
Qed.

(** C1, as the code has it: when the playout from the leaf reaches a
    terminal state after [k] moves, [_simulate] returns the reward of that
    state, turned into [1 - reward] exactly when [k] is even (the flag
    starts out set and every move flips it) and unchanged when [k] is
    odd. *)
Theorem simulate_parity rnd leaf k s' r :
  walk find_random_child is_terminal rnd leaf k s' →
  reward s' = Ok r →
  _simulate find_random_child is_terminal reward rnd leaf
  = Ok (if Nat.even k then 1 - r else r)%Qc.
Proof.
  intros Hw Hr. unfold _simulate.
  rewrite (simulate_loop_walk _ _ _ _ _ _ Hw Hr). simpl.
  by rewrite <- Nat.negb_odd.
Qed.

(** *** [choose] *)

(** C6: on a terminal node [choose] raises and leaves the engine as it
    was; on a node that is not terminal and not a key of [children] it
    returns what [find_random_child] returns, without reading the
    statistics. *)
Theorem choose_terminal_or_unexpanded t node rnd :
  (is_terminal node = true →
   choose find_random_child is_terminal t node rnd = (Raise ChooseOnTerminal, t))
  ∧ (is_terminal node = false → node ∉ dom (children t) →
     choose find_random_child is_terminal t node rnd
     = (find_random_child node rnd, t)).
Proof.
  unfold choose. split.
  - by intros ->.
  - intros -> Hn. apply not_elem_of_dom in Hn. by rewrite Hn.
Qed.

(** *** Selection *)

Lemma pop_elem k (u : gset State) :
  u ≠ ∅ → ∃ n, pop k u = Ok n ∧ n ∈ u.
Proof.
  intros Hu. unfold pop.
  assert (k mod length (elements u) < length (elements u)) as Hlt.
  { apply Nat.mod_upper_bound. intros Hl%nil_length_inv.
    by apply elements_empty_inv, leibniz_equiv in Hl. }
  apply lookup_lt_is_Some in Hlt as [n Hn]. rewrite Hn.
  exists n. split; [done|]. by apply list_elem_of_lookup_2, elem_of_elements in Hn.
Qed.

Lemma unexplored_empty t cs :
  unexplored t cs = ∅ ↔ set_Forall (λ n, n ∈ dom (children t)) cs.
Proof.
  unfold unexplored, set_Forall. split.
  - intros Hu n Hn. destruct (decide (n ∈ dom (children t))) as [|Hd]; [done|].
    assert (n ∈ cs ∖ dom (children t)) as Hin by by apply elem_of_difference.
    rewrite Hu in Hin. by apply not_elem_of_empty in Hin.
  - intros Hall. apply leibniz_equiv, elem_of_equiv_empty. intros n.
    rewrite elem_of_difference. intros [Hn Hd]. by apply Hd, Hall.
Qed.

(** The result of [_uct_select] is a registered child of the node. *)
Lemma uct_select_elem t node c :
  _uct_select log sqrt exploration_weight t node = Ok c →
  ∃ cs, children t !! node = Some cs ∧ c ∈ cs.
Proof.
  unfold _uct_select. destruct (children t !! node) as [cs|]; [|done].
  case_bool_decide; [|done].
  intros (lg & _ & (keys & Hkeys & Hmax)%bind_Ok)%bind_Ok.
  exists cs. split; [done|].
  apply py_max_elem in Hmax.
  rewrite (mapM_Ok_tagged _ _ _ Hkeys) in Hmax. by apply elem_of_elements.
Qed.

(** The assertion of [_uct_select] holds where [_select] calls it. *)
Lemma uct_select_assertion t node :
  uct_invoked t node →
  _uct_select log sqrt exploration_weight t node ≠ Raise UctAssertion.
Proof.
  intros (cs & Hcs & _ & Hu). unfold _uct_select. rewrite Hcs.
  apply unexplored_empty in Hu. rewrite bool_decide_eq_true_2 by done.
  intros [Hlog|(lg & _ & [Hkeys|(keys & _ & Hmax)]%bind_Raise)]%bind_Raise.
  - unfold py_log in Hlog. by case_decide.
  - apply mapM_Raise in Hkeys as (n & _ & [Hu'|(k' & _ & ?)]%bind_Raise); [|done].
    unfold uct, py_div, py_sqrt in Hu'.
    repeat (case_decide || destruct (Qc_ltb _ _); simpl in Hu'; try done).
  - unfold py_max in Hmax. by destruct keys.
Qed.

Lemma select_loop_acc fuel k t path node :
  _select_loop log sqrt exploration_weight fuel k t path node
  = _select_loop log sqrt exploration_weight fuel k t [] node
    ≫= λ p, Ok (path ++ p).
Proof.
  revert path node. induction fuel as [|fuel IH]; intros path node; simpl; [done|].
  destruct (children t !! node) as [cs|]; [|done].
  case_decide; [done|]. case_decide.
  - destruct (_uct_select _ _ _ t node) as [node'| |]; simpl; [|done..].
    rewrite (IH (path ++ [node])), (IH [node]).
    destruct (_select_loop _ _ _ fuel k t [] node') as [p| |]; simpl; [|done..].
    by rewrite <- (assoc_L (++)).
  - destruct (pop k _) as [n| |]; simpl; [|done..].
    by rewrite <- (assoc_L (++)).
Qed.

(** C4: while [_select] runs, a node with a registered child that is not
    a key of [children] ends the descent: one such child is appended to
    the path and the path is returned, [_uct_select] is not called.  So
    [_uct_select] is called only on nodes all of whose registered children
    are expanded, and its assertion never fails, whatever the engine
    state, the starting node and the length of the descent. *)
Theorem select_frontier_first k t :
  (∀ fuel path node cs,
     children t !! node = Some cs → unexplored t cs ≠ ∅ →
     ∃ n, n ∈ cs ∧ (n ∉ dom (children t))
          ∧ pop k (unexplored t cs) = Ok n
          ∧ _select_loop log sqrt exploration_weight (S fuel) k t path node
            = Ok (path ++ [node; n]))
  ∧ (∀ node, uct_invoked t node →
       ∀ cs, children t !! node = Some cs → ∀ n, n ∈ cs → n ∈ dom (children t))
  ∧ (∀ fuel path node,
       _select_loop log sqrt exploration_weight fuel k t path node
       ≠ Raise UctAssertion).
Proof.
  split; [|split].
  - intros fuel path node cs Hcs Hu.
    destruct (pop_elem k _ Hu) as (n & Hpop & Hin).
    unfold unexplored in Hin. apply elem_of_difference in Hin as [Hn Hd].
    exists n. do 3 (split; [done|]). simpl. rewrite Hcs.
    assert (cs ≠ ∅) as Hne.
    { intros ->. by apply not_elem_of_empty in Hn. }
    rewrite decide_False, decide_False, Hpop by done. simpl.
    by rewrite <- (assoc_L (++)).
  - intros node (cs' & Hcs' & _ & Hu) cs Hcs n Hn.
    rewrite Hcs' in Hcs. injection Hcs as ->.
    by apply unexplored_empty in Hu; apply Hu.
  - intros fuel. induction fuel as [|fuel IH]; intros path node; simpl; [done|].
    destruct (children t !! node) as [cs|] eqn:Hcs; [|done].
    case_decide as Hne; [done|]. case_decide as Hu.
    + intros [Huct|(node' & _ & Hloop)]%bind_Raise.
      * revert Huct. apply uct_select_assertion. by exists cs.
      * by apply IH in Hloop.
    + destruct (pop_elem k _ Hu) as (n & -> & _). done.
Qed.

(** *** The selection path has no repeated node *)

Lemma select_step fuel k t node :
  _select_loop log sqrt exploration_weight (S fuel) k t [] node
  = match children t !! node with
    | None => Ok [node]
    | Some cs =>
        if decide (cs = ∅) then Ok [node]
        else if decide (unexplored t cs = ∅) then
          _uct_select log sqrt exploration_weight t node ≫= λ node',
          _select_loop log sqrt exploration_weight fuel k t [] node' ≫= λ p,
          Ok (node :: p)
        else pop k (unexplored t cs) ≫= λ n, Ok [node; n]
    end.
Proof.
  simpl. destruct (children t !! node) as [cs|]; [|done].
  repeat case_decide; [done| |done].
  destruct (_uct_select _ _ _ t node) as [node'| |]; simpl; [|done..].
  by rewrite select_loop_acc.
Qed.

Lemma select_mono fuel fuel' k t node p :
  _select_loop log sqrt exploration_weight fuel k t [] node = Ok p →
  fuel ≤ fuel' →
  _select_loop log sqrt exploration_weight fuel' k t [] node = Ok p.
Proof.
  revert fuel' node p. induction fuel as [|fuel IH]; intros fuel' node p; [done|].
  intros Hp Hle. destruct fuel' as [|fuel']; [lia|].
  rewrite select_step in Hp |- *.
  destruct (children t !! node) as [cs|]; [|done].
  repeat case_decide; [done| |done].
  apply bind_Ok in Hp as (node' & -> & (p' & Hp' & [= <-])%bind_Ok). simpl.
  rewrite (IH fuel' node' p') by (done || lia). done.
Qed.

Lemma select_suffix fuel k t node p s :
  _select_loop log sqrt exploration_weight fuel k t [] node = Ok p →
  s ∈ p →
  ∃ fuel' q, fuel' ≤ fuel
    ∧ _select_loop log sqrt exploration_weight fuel' k t [] s = Ok q
    ∧ q `suffix_of` p.
Proof.
  revert node p. induction fuel as [|fuel IH]; intros node p Hp Hs; [done|].
  pose proof Hp as Hp0. rewrite select_step in Hp.
  destruct (children t !! node) as [cs|] eqn:Hcs.
  - case_decide as Hne; [|case_decide as Hu].
    + injection Hp as <-. apply list_elem_of_singleton in Hs as ->.
      by exists (S fuel), [node].
    + apply bind_Ok in Hp as (node' & Huct & (p' & Hp' & [= <-])%bind_Ok).
      apply elem_of_cons in Hs as [->|Hs].
      * by exists (S fuel), (node :: p').
      * destruct (IH _ _ Hp' Hs) as (fuel' & q & Hle & Hq & Hsuf).
        exists fuel', q. split; [lia|]. split; [done|]. by apply suffix_cons_r.
    + apply bind_Ok in Hp as (n & Hpop & [= <-]).
      apply elem_of_cons in Hs as [->|Hs].
      * by exists (S fuel), [node; n].
      * apply list_elem_of_singleton in Hs as ->.
        destruct (pop_elem k _ Hu) as (n' & Hpop' & Hin).
        rewrite Hpop in Hpop'. injection Hpop' as <-.
        unfold unexplored in Hin. apply elem_of_difference in Hin as [_ Hd].
        apply not_elem_of_dom in Hd.
        exists 1, [n]. split; [lia|]. split.
        -- by rewrite select_step, Hd.
        -- by apply suffix_cons_r.
  - injection Hp as <-. apply list_elem_of_singleton in Hs as ->.
    by exists (S fuel), [node].
Qed.

Lemma select_NoDup fuel k t node p :
  _select_loop log sqrt exploration_weight fuel k t [] node = Ok p → NoDup p.
Proof.
  revert node p. induction fuel as [|fuel IH]; intros node p Hp; [done|].
  pose proof Hp as Hp0. rewrite select_step in Hp.
  destruct (children t !! node) as [cs|] eqn:Hcs.
  - case_decide as Hne; [|case_decide as Hu].
    + injection Hp as <-. apply NoDup_singleton.
    + apply bind_Ok in Hp as (node' & Huct & (p' & Hp' & [= <-])%bind_Ok).
      apply NoDup_cons. split; [|by eapply IH].
      intros Hin. destruct (select_suffix _ _ _ _ _ _ Hp' Hin)
        as (fuel' & q & Hle & Hq & Hsuf).
      apply (select_mono _ (S fuel)) in Hq; [|lia].
      rewrite Hp0 in Hq. injection Hq as <-.
      apply suffix_length in Hsuf. simpl in Hsuf. lia.
    + apply bind_Ok in Hp as (n & Hpop & [= <-]).
      destruct (pop_elem k _ Hu) as (n' & Hpop' & Hin).
      rewrite Hpop in Hpop'. injection Hpop' as <-.
      unfold unexplored in Hin. apply elem_of_difference in Hin as [_ Hd].
      apply NoDup_cons. split; [|apply NoDup_singleton].
      intros ->%list_elem_of_singleton. apply Hd, elem_of_dom. eauto.
  - injection Hp as <-. apply NoDup_singleton.
Qed.

Lemma select_nonempty fuel k t node p :
  _select_loop log sqrt exploration_weight fuel k t [] node = Ok p → node ∈ p.
Proof.
  destruct fuel as [|fuel]; [done|]. rewrite select_step.
  destruct (children t !! node) as [cs|].
  - repeat case_decide.
    + intros [= <-]. left.
    + intros (? & _ & (? & _ & [= <-])%bind_Ok)%bind_Ok. left.
    + intros (? & _ & [= <-])%bind_Ok. left.
  - intros [= <-]. left.
Qed.

(** *** One rollout *)

Lemma do_rollout_inv t node o t' :
  do_rollout find_children find_random_child is_terminal reward
    log sqrt exploration_weight t node o = (Ok (), t') →
  ∃ path leaf t1 r,
    rollout_path log sqrt exploration_weight t node o = Ok path
    ∧ last path = Some leaf
    ∧ _expand find_children t leaf = (Ok (), t1)
    ∧ _simulate find_random_child is_terminal reward (playout o) leaf = Ok r
    ∧ rollout_reward find_random_child is_terminal reward
        log sqrt exploration_weight t node o = Ok r
    ∧ t' = _backpropagate path r t1.
Proof.
  unfold do_rollout, rollout_reward, rollout_path.
  destruct (_select _ _ _ _ _ t node) as [path| |]; [|done..].
  simpl. destruct (last path) as [leaf|] eqn:Hl; [|done].
  destruct (_expand find_children t leaf) as [[[]| |] t1] eqn:He; [|done..].
  destruct (_simulate _ _ _ _ leaf) as [r| |] eqn:Hs; [|done..].
  intros [= <-]. by exists path, leaf, t1, r.
Qed.

Lemma rollout_path_NoDup t node o path :
  rollout_path log sqrt exploration_weight t node o = Ok path → NoDup path.
Proof. apply select_NoDup. Qed.

(** *** Counting visits *)

Lemma flips_fst r (l : list State) : (flips r l).*1 = l.
Proof.
  revert r. induction l as [|n l IH]; intros r; csimpl; [done|].
  by rewrite IH.
Qed.

Lemma getN_record_all vs t s :
  getN (record_all vs t) s = getN t s + length (filter (λ n, n = s) vs.*1).
Proof.
  revert t. induction vs as [|v vs IH]; intros t; csimpl; [lia|].
  rewrite IH, getN_record, filter_cons.
  repeat case_decide; csimpl; lia || done.
Qed.

Lemma getQ_record_all vs t s :
  getQ (record_all vs t) s = (getQ t s + reward_sum s vs)%Qc.
Proof.
  revert t. induction vs as [|v vs IH]; intros t; simpl.
  - by rewrite Qcplus_0_r.
  - rewrite IH, getQ_record. repeat case_decide; done || ring.
Qed.


Lemma count_NoDup (l : list State) s :
  NoDup l →
  length (filter (λ n, n = s) l) = if decide (s ∈ l) then 1 else 0.
Proof.
  induction 1 as [|n l Hn Hl IH].
  - rewrite filter_nil. case_decide as Hin; [|done].
    by apply not_elem_of_nil in Hin.
  - rewrite filter_cons. destruct (decide (n = s)) as [->|Hne]; csimpl; rewrite IH.
    + rewrite (decide_False (P := s ∈ l)) by done.
      by rewrite decide_True by left.
    + destruct (decide (s ∈ l)) as [Hin|Hin].
      * by rewrite decide_True by by right.
      * rewrite decide_False; [done|]. by intros [->|?]%elem_of_cons.
Qed.

Lemma getN_backpropagate path r t s :
  NoDup path →
  getN (_backpropagate path r t) s
  = getN t s + if decide (s ∈ path) then 1 else 0.
Proof.
  intros Hnd. rewrite backpropagate_recorded, getN_record_all.
  unfold recorded. rewrite flips_fst, count_NoDup by by rewrite reverse_Permutation.
  destruct (decide (s ∈ path)) as [Hin|Hin].
  - by rewrite decide_True by by apply elem_of_reverse.
  - by rewrite decide_False by by rewrite elem_of_reverse.
Qed.

Lemma getQ_backpropagate path r t s :
  getQ (_backpropagate path r t) s
  = (getQ t s + reward_sum s (recorded path r))%Qc.
Proof. by rewrite backpropagate_recorded, getQ_record_all. Qed.

Lemma do_rollouts_cons t node o calls :
  do_rollouts find_children find_random_child is_terminal reward
    log sqrt exploration_weight t ((node, o) :: calls)
  = match do_rollout find_children find_random_child is_terminal reward
            log sqrt exploration_weight t node o with
    | (Ok _, t') =>
        do_rollouts find_children find_random_child is_terminal reward
          log sqrt exploration_weight t' calls
    | (Raise e, t') => (Raise e, t')
    | (OutOfFuel, t') => (OutOfFuel, t')
    end.
Proof. done. Qed.



(** *** Expanded nodes have been visited *)

Lemma getN_backpropagate_le path r t s :
  getN t s ≤ getN (_backpropagate path r t) s.
Proof. rewrite backpropagate_recorded, getN_record_all. lia. Qed.

Lemma getN_backpropagate_elem path r t s :
  s ∈ path → getN t s + 1 ≤ getN (_backpropagate path r t) s.
Proof.
  intros Hs. rewrite backpropagate_recorded, getN_record_all.
  unfold recorded. rewrite flips_fst.
  apply elem_of_reverse, list_elem_of_split in Hs as (l1 & l2 & ->).
  rewrite filter_app, filter_cons, decide_True, !length_app by done.
  simpl. lia.
Qed.

Lemma do_rollout_expanded_visited t node o t' :
  expanded_visited t →
  do_rollout find_children find_random_child is_terminal reward
    log sqrt exploration_weight t node o = (Ok (), t') →
  expanded_visited t'.
Proof.
  intros Hinv (path & leaf & t1 & r & _ & Hl & He & _ & _ & ->)%do_rollout_inv s.
  destruct (expand_children _ _ _ He) as (_ & HN & _ & Hother).
  rewrite children_backpropagate. intros Hs.
  destruct (decide (s = leaf)) as [->|Hne].
  - apply last_Some_elem_of in Hl.
    pose proof (getN_backpropagate_elem path r t1 leaf Hl). lia.
  - assert (1 ≤ getN t1 s) as Hge.
    { unfold getN. rewrite HN. apply Hinv, elem_of_dom.
      rewrite <- Hother by done. by apply elem_of_dom. }
    pose proof (getN_backpropagate_le path r t1 s). lia.
Qed.

Lemma reachable_expanded_visited t :
  reachable find_children find_random_child is_terminal reward
    log sqrt exploration_weight t →
  expanded_visited t.
Proof.
  induction 1 as [|t node o t' _ IH Hr].
  - intros s Hs. simpl in Hs. by rewrite dom_empty_L in Hs.
  - by eapply do_rollout_expanded_visited.
Qed.

(** C5: in an engine state that complete rollouts lead to from a fresh
    engine, where [_select] calls [_uct_select] the node has been visited
    at least once and so has every registered child of it; hence
    [math.log] is defined there and no division by zero occurs. *)
Theorem uct_select_visits t node :
  reachable find_children find_random_child is_terminal reward
    log sqrt exploration_weight t →
  uct_invoked t node →
  1 ≤ getN t node
  ∧ (∀ cs, children t !! node = Some cs → ∀ n, n ∈ cs → 1 ≤ getN t n)
  ∧ _uct_select log sqrt exploration_weight t node ≠ Raise LogDomain
  ∧ _uct_select log sqrt exploration_weight t node ≠ Raise DivisionByZero.
Proof.
  intros Hinv%reachable_expanded_visited (cs & Hcs & Hne & Hu).
  apply unexplored_empty in Hu.
  assert (1 ≤ getN t node) as Hnode.
  { apply Hinv, elem_of_dom. eauto. }
  assert (∀ n, n ∈ cs → 1 ≤ getN t n) as Hchildren.
  { intros n Hn. by apply Hinv, Hu. }
  split; [done|]. split.
  { intros cs' Hcs'. rewrite Hcs in Hcs'. by injection Hcs' as <-. }
  assert (∀ e, e = LogDomain ∨ e = DivisionByZero →
            _uct_select log sqrt exploration_weight t node ≠ Raise e) as Hno.
  { intros e He. unfold _uct_select. rewrite Hcs, bool_decide_eq_true_2 by done.
    unfold py_log. rewrite decide_False by lia. simpl.
    intros [Hkeys|(keys & _ & Hmax)]%bind_Raise.
    - apply mapM_Raise in Hkeys as (n & Hn & [Hu'|(k' & _ & ?)]%bind_Raise); [|done].
      apply elem_of_elements, Hchildren in Hn.
      unfold uct, py_div in Hu'. rewrite !decide_False in Hu' by lia.
      simpl in Hu'. unfold py_sqrt in Hu'.
      destruct (Qc_ltb _ _); simpl in Hu'; [|done].
      injection Hu' as <-. by destruct He.
    - unfold py_max in Hmax. destruct keys; [|done].
      injection Hmax as <-. by destruct He. }
  split; apply Hno; auto.
Qed.

(** *** Rewards stay in the unit interval *)

Lemma simulate_loop_unit_interval rnd s inv v :
  (∀ s r, is_terminal s = true → reward s = Ok r → unit_interval r) →
  _simulate_loop find_random_child is_terminal reward rnd s inv = Ok v →
  unit_interval v.
Proof.
  intros Hrw (k & s' & r & Hw%walk_terminal & Hr & ->)%simulate_loop_returns.
  pose proof (Hrw _ _ Hw Hr).
  destruct (xorb inv (Nat.odd k)); auto using unit_interval_flip.
Qed.

Lemma flips_unit_interval r (l : list State) :
  unit_interval r → Forall (λ v, unit_interval v.2) (flips r l).
Proof.
  revert r. induction l as [|n l IH]; intros r Hr; simpl; constructor; [done|].
  by apply IH, unit_interval_flip.
Qed.

Lemma bounded_record t node r :
  bounded t → unit_interval r → bounded (record node r t).
Proof.
  intros Hb [H0 H1] s. destruct (Hb s) as [HQ0 HQN].
  rewrite getQ_record, getN_record. case_decide; [|done].
  rewrite Qc_of_nat_succ. split.
  - by apply Qcplus_nonneg_nonneg.
  - by apply Qcplus_le_compat.
Qed.

Lemma bounded_record_all vs t :
  Forall (λ v, unit_interval v.2) vs → bounded t → bounded (record_all vs t).
Proof.
  intros Hvs. revert t. induction Hvs as [|v vs Hv _ IH]; intros t Hb; simpl; [done|].
  by apply IH, bounded_record.
Qed.

Lemma bounded_same t t' : Q t' = Q t → N t' = N t → bounded t → bounded t'.
Proof. intros HQ HN Hb s. unfold getQ, getN. rewrite HQ, HN. apply Hb. Qed.

Lemma expand_statistics t node res t' :
  _expand find_children t node = (res, t') → Q t' = Q t ∧ N t' = N t.
Proof.
  unfold _expand. destruct (children t !! node); [by intros [= _ <-]|].
  by destruct (find_children node); intros [= _ <-].
Qed.

Lemma do_rollout_bounded t node o res t' :
  (∀ s r, is_terminal s = true → reward s = Ok r → unit_interval r) →
  bounded t →
  do_rollout find_children find_random_child is_terminal reward
    log sqrt exploration_weight t node o = (res, t') →
  bounded t'.
Proof.
  intros Hrw Hb. unfold do_rollout.
  destruct (_select _ _ _ _ _ t node) as [path| |]; [|by intros [= _ <-]..].
  destruct (last path) as [leaf|]; [|by intros [= _ <-]].
  destruct (_expand find_children t leaf) as [ex t1] eqn:He.
  apply expand_statistics in He as [HQ HN].
  pose proof (bounded_same _ _ HQ HN Hb) as Hb1.
  destruct ex as [[]| |]; [|by intros [= _ <-]..].
  destruct (_simulate _ _ _ _ leaf) as [r| |] eqn:Hs; [|by intros [= _ <-]..].
  intros [= _ <-]. rewrite backpropagate_recorded.
  apply bounded_record_all; [|done].
  by apply flips_unit_interval, (simulate_loop_unit_interval _ _ _ _ Hrw Hs).
Qed.

Lemma do_rollouts_bounded t calls res t' :
  (∀ s r, is_terminal s = true → reward s = Ok r → unit_interval r) →
  bounded t →
  do_rollouts find_children find_random_child is_terminal reward
    log sqrt exploration_weight t calls = (res, t') →
  bounded t'.
Proof.
  intros Hrw. revert t. induction calls as [|[node o] calls IH]; intros t Hb.
  - by intros [= _ <-].
  - rewrite do_rollouts_cons.
    destruct (do_rollout _ _ _ _ _ _ _ t node o) as [ex t1] eqn:Hr.
    apply (do_rollout_bounded _ _ _ _ _ Hrw Hb) in Hr.
    destruct ex as [[]| |]; [by apply IH|by intros [= _ <-]..].
Qed.

Lemma bounded_fresh : bounded (State := State) fresh.
Proof.
  intros s. unfold getQ, getN, fresh; simpl. rewrite !lookup_empty; simpl.
  replace (Qc_of_nat 0) with 0%Qc by (symmetry; apply Z2Qc_inj_0).
  split; apply Qcle_refl.
Qed.

(** C8: if [reward] is between [0] and [1] on every terminal state, then
    after any sequence of [do_rollout] calls on a fresh engine (whether or
    not the last one returned) every state that has been visited has an
    average [Q/N] between [0] and [1]. *)
Theorem reward_range_preserved calls res t :
  (∀ s r, is_terminal s = true → reward s = Ok r → (0 ≤ r ∧ r ≤ 1)%Qc) →
  do_rollouts find_children find_random_child is_terminal reward
    log sqrt exploration_weight fresh calls = (res, t) →
  ∀ s, 0 < getN t s →
    (0 ≤ getQ t s / Qc_of_nat (getN t s)
     ∧ getQ t s / Qc_of_nat (getN t s) ≤ 1)%Qc.
Proof.
  intros Hrw Hr s Hs.
  destruct (do_rollouts_bounded _ _ _ _ Hrw bounded_fresh Hr s) as [H0 HN].
  apply Qc_div_unit_interval; [done..|]. by apply Qc_of_nat_pos.
Qed.

(** *** The final choice *)

Lemma score_ltb_false a b :
  score_ltb a b = false ↔ score_le b a.
Proof.
  destruct a as [x|], b as [y|]; simpl; try done.
  apply Qc_ltb_false.
Qed.

Lemma score_ltb_true a b : score_ltb a b = true → score_le a b.
Proof.
  destruct a as [x|], b as [y|]; simpl; try done.
  apply Qc_ltb_true.
Qed.

Lemma score_le_trans a b c : score_le a b → score_le b c → score_le a c.
Proof.
  destruct a as [x|], b as [y|], c as [z|]; simpl; try done.
  apply Qcle_trans.
Qed.

Lemma score_le_refl a : score_le a a.
Proof. destruct a; simpl; [apply Qcle_refl|done]. Qed.

Lemma max_from_score t best l :
  let c := max_from score_ltb (best, score t best)
             (map (λ n, (n, score t n)) l) in
  c ∈ best :: l ∧ ∀ n, n ∈ best :: l → score_le (score t n) (score t c).
Proof.
  revert best. induction l as [|x l IH]; intros best; simpl.
  - split; [left|]. intros n ->%list_elem_of_singleton. apply score_le_refl.
  - destruct (score_ltb (score t best) (score t x)) eqn:Hlt.
    + destruct (IH x) as [Hin Hmax]. split; [by right|].
      intros n [->|Hn]%elem_of_cons; [|by apply Hmax].
      eapply score_le_trans; [by apply score_ltb_true|]. apply Hmax. left.
    + destruct (IH best) as [Hin Hmax]. split.
      * apply elem_of_cons in Hin as [->|?]; [left|by do 2 right].
      * intros n [->|[->|Hn]%elem_of_cons]%elem_of_cons.
        -- apply Hmax. left.
        -- eapply score_le_trans; [by apply score_ltb_false|]. apply Hmax. left.
        -- apply Hmax. by right.
Qed.

Lemma score_visited t n : 0 < getN t n ↔ is_Some (score t n).
Proof.
  unfold score. case_decide as Hn; split.
  - lia.
  - by intros [? ?].
  - eauto.
  - lia.
Qed.

(** C3: for a node that is not terminal and is a key of [children], with
    a registered set of children that is not empty (the set of a node
    that is not terminal, under the contract of [find_children]),
    [choose] returns one of the registered children, one whose score is
    the greatest: the average [Q/N], or minus infinity when the child has
    no visit.  So when some registered child has been visited, the child
    returned has been visited.  The engine is left as it was. *)
Theorem choose_best_child t node rnd cs :
  is_terminal node = false →
  children t !! node = Some cs →
  cs ≠ ∅ →
  ∃ c, choose find_random_child is_terminal t node rnd = (Ok (Some c), t)
       ∧ c ∈ cs
       ∧ (∀ n, n ∈ cs → score_le (score t n) (score t c))
       ∧ (∀ n, n ∈ cs → score t n = if decide (getN t n = 0) then None
                                    else Some (getQ t n / Qc_of_nat (getN t n))%Qc)
       ∧ ((∃ n, n ∈ cs ∧ 0 < getN t n) → 0 < getN t c).
Proof.
  intros Ht Hcs Hne. unfold choose. rewrite Ht, Hcs.
  destruct (elements cs) as [|best l] eqn:Hel.
  { by apply elements_empty_inv, leibniz_equiv in Hel. }
  simpl. destruct (max_from_score t best l) as [Hin Hmax].
  set (c := max_from _ _ _) in *. exists c.
  assert (∀ n, n ∈ cs ↔ n ∈ best :: l) as Hmem.
  { intros n. by rewrite <- Hel, elem_of_elements. }
  split; [done|]. split; [by apply Hmem|].
  split; [intros n Hn; by apply Hmax, Hmem|]. split; [done|].
  intros (n & Hn%Hmem%Hmax & [q Hq]%score_visited).
  apply score_visited. rewrite Hq in Hn.
  destruct (score t c); [eauto|done].
Qed.

(** The registry holds what [find_children] returned, so under the
    contract that a state without children is terminal the registered set
    of a node that is not terminal is not empty. *)
Lemma reachable_children t node cs :
  reachable find_children find_random_child is_terminal reward
    log sqrt exploration_weight t →
  children t !! node = Some cs →
  find_children node = Ok cs.
Proof.
  intros Hr. revert node cs.
  induction Hr as [|t n o t' _ IH Hr]; intros node cs.
  - simpl. by rewrite lookup_empty.
  - destruct (do_rollout_inv _ _ _ _ Hr) as (path & leaf & t1 & r & _ & _ & He & _ & _ & ->).
    rewrite children_backpropagate. revert He. unfold _expand.
    destruct (children t !! leaf) as [cs'|] eqn:Hleaf.
    + intros [= <-]. apply IH.
    + destruct (find_children leaf) as [cs'| |] eqn:Hfc; intros [= <-]; simpl.
      destruct (decide (leaf = node)) as [->|Hneq].
      * rewrite lookup_insert_eq. by intros [= <-].
      * rewrite lookup_insert_ne by done. apply IH.
Qed.

Lemma reachable_children_nonempty t node cs :
  (∀ s cs, is_terminal s = false → find_children s = Ok cs → cs ≠ ∅) →
  reachable find_children find_random_child is_terminal reward
    log sqrt exploration_weight t →
  is_terminal node = false →
  children t !! node = Some cs →
  cs ≠ ∅.
Proof.
  intros Hcontract Hr Ht Hcs. apply (Hcontract node); [done|].
  by eapply reachable_children.
Qed.

Lemma do_rollouts_reachable t calls t' :
  reachable find_children find_random_child is_terminal reward
    log sqrt exploration_weight t →
  do_rollouts find_children find_random_child is_terminal reward
    log sqrt exploration_weight t calls = (Ok (), t') →
  reachable find_children find_random_child is_terminal reward
    log sqrt exploration_weight t'.
Proof.
  revert t. induction calls as [|[node o] calls IH]; intros t Hr.
  - by intros [= <-].
  - rewrite do_rollouts_cons.
    destruct (do_rollout _ _ _ _ _ _ _ t node o) as [[[]| |] t1] eqn:Hd; [|done..].
    apply IH. by eapply reachable_rollout.
Qed.
End EngineProperties.

(** C9: [_expand] of a node that is already a key of [children] returns
    the engine unchanged, whatever [find_children] would answer: the
    registered children are not computed again. *)
Theorem expand_idempotent {State : Type} `{Countable State}
    (t : mcts State) (s : State) :
  s ∈ dom (children t) →
  ∀ find_children : State → outcome (gset State),
    _expand find_children t s = (Ok (), t).
Proof.
  intros [cs Hs]%elem_of_dom fc. unfold _expand. by rewrite Hs.
Qed.

(** ** Properties of the tic-tac-toe board *)

Module TicTacToeProofs.
Import TicTacToe TicTacToeSpec.

Lemma clamp_nat len i : clamp len (Z.of_nat i) = i `min` len.
Proof. unfold clamp. destruct (Z.ltb_spec (Z.of_nat i) 0); lia. Qed.

Lemma make_move_tup (l : list (option bool)) i x :
  i < length l →
  slice_to l (Z.of_nat i) ++ [x] ++ slice_from l (Z.of_nat i + 1) = <[i:=x]> l.
Proof.
  intros Hi. unfold slice_to, slice_from.
  replace (Z.of_nat i + 1)%Z with (Z.of_nat (S i)) by lia.
  rewrite !clamp_nat, Nat.min_l, Nat.min_l by lia.
  symmetry. by apply insert_take_drop.
Qed.

Lemma elem_of_empty_spots b index :
  index ∈ empty_spots b ↔ ∃ i, index = Z.of_nat i ∧ tup b !! i = Some None.
Proof.
  unfold empty_spots. rewrite list_elem_of_omap. split.
  - intros ([i v] & Hin & Hv). simpl in Hv. case_bool_decide; [|done].
    injection Hv as <-. apply elem_of_lookup_imap in Hin as (i' & v' & [= -> ->] & Hl).
    exists i'. simpl in *. by subst.
  - intros (i & -> & Hl). exists (i, None). split.
    + apply elem_of_lookup_imap. by exists i, None.
    + done.
Qed.

Lemma all_is_true p v1 v2 v3 :
  all_is (Some p) v1 v2 v3 = true ↔ v1 = Some p ∧ v2 = Some p ∧ v3 = Some p.
Proof.
  unfold all_is. rewrite !andb_true_iff, !bool_decide_eq_true.
  split; [intros [[<- <-] <-]|intros (-> & -> & ->)]; done.
Qed.

Lemma py_index_Ok {A} (l : list A) i x : py_index l i = Ok x ↔ l !! i = Some x.
Proof.
  unfold py_index. destruct (l !! i); split; intros [=]; by subst.
Qed.

Lemma find_winner_loop_Some tup combos p :
  _find_winner_loop tup combos = Ok (Some p) → ∃ c, c ∈ combos ∧ line tup p c.
Proof.
  induction combos as [|[[i1 i2] i3] combos IH]; simpl; [done|].
  intros (v1 & H1%py_index_Ok & (v2 & H2%py_index_Ok
          & (v3 & H3%py_index_Ok & Hrest)%bind_Ok)%bind_Ok)%bind_Ok.
  destruct (all_is (Some false) v1 v2 v3) eqn:Hf.
  { injection Hrest as <-. apply all_is_true in Hf as (-> & -> & ->).
    exists (i1, i2, i3). split; [left|done]. }
  destruct (all_is (Some true) v1 v2 v3) eqn:Ht.
  { injection Hrest as <-. apply all_is_true in Ht as (-> & -> & ->).
    exists (i1, i2, i3). split; [left|done]. }
  destruct (IH Hrest) as (c & Hc & Hline). exists c. split; [by right|done].
Qed.

Lemma find_winner_loop_None tup combos c p :
  _find_winner_loop tup combos = Ok None → c ∈ combos → ¬ line tup p c.
Proof.
  induction combos as [|[[i1 i2] i3] combos IH]; simpl.
  { by intros _ ?%not_elem_of_nil. }
  intros (v1 & H1%py_index_Ok & (v2 & H2%py_index_Ok
          & (v3 & H3%py_index_Ok & Hrest)%bind_Ok)%bind_Ok)%bind_Ok.
  destruct (all_is (Some false) v1 v2 v3) eqn:Hf; [done|].
  destruct (all_is (Some true) v1 v2 v3) eqn:Ht; [done|].
  intros [->|Hc]%elem_of_cons; [|by apply IH].
  intros (H1' & H2' & H3'). simpl in *.
  rewrite H1 in H1'. rewrite H2 in H2'. rewrite H3 in H3'.
  injection H1' as ->. injection H2' as ->. injection H3' as ->.
  destruct p.
  - by rewrite (proj2 (all_is_true true _ _ _)) in Ht.
  - by rewrite (proj2 (all_is_true false _ _ _)) in Hf.
Qed.

Lemma find_winner_loop_total tup combos :
  Forall (λ c : nat * nat * nat,
            c.1.1 < length tup ∧ c.1.2 < length tup ∧ c.2 < length tup) combos →
  ∃ w, _find_winner_loop tup combos = Ok w.
Proof.
  induction 1 as [|[[i1 i2] i3] combos (H1 & H2 & H3) _ [w IH]]; simpl; [by eexists|].
  simpl in *.
  apply lookup_lt_is_Some in H1 as [v1 H1], H2 as [v2 H2], H3 as [v3 H3].
  unfold py_index. rewrite H1, H2, H3. simpl.
  destruct (all_is _ _ _ _); [by eexists|].
  destruct (all_is _ _ _ _); [by eexists|]. by exists w.
Qed.

Lemma find_winner_total tup : length tup = 9 → ∃ w, _find_winner tup = Ok w.
Proof.
  intros Hlen. apply find_winner_loop_total. rewrite Hlen.
  unfold _winning_combos. simpl. repeat constructor; simpl; lia.
Qed.

Lemma line_insert tup i p q c :
  q ≠ p → line (<[i:=Some p]> tup) q c → line tup q c.
Proof.
  intros Hne (H1 & H2 & H3).
  assert (∀ j, <[i:=Some p]> tup !! j = Some (Some q) → tup !! j = Some (Some q)) as Hj.
  { intros j [(_ & [= ->] & _)|[_ ?]]%list_lookup_insert_Some; done. }
  split; [|split]; by apply Hj.
Qed.

Lemma filled_insert tup i p :
  tup !! i = Some None → filled (<[i:=Some p]> tup) = S (filled tup).
Proof.
  unfold filled. revert i. induction tup as [|v tup IH]; intros i Hi; [done|].
  destruct i as [|i]; simpl in Hi.
  - injection Hi as ->.
    change (<[0:=Some p]> (None :: tup)) with (Some p :: tup).
    rewrite !filter_cons. rewrite decide_True by done.
    rewrite decide_False by (by intros Hx). done.
  - change (<[S i:=Some p]> (v :: tup)) with (v :: <[i:=Some p]> tup).
    rewrite !filter_cons. case_decide; simpl; by rewrite (IH i).
Qed.

Lemma filled_full tup :
  existsb (λ v, bool_decide (v = None)) tup = false → filled tup = length tup.
Proof.
  unfold filled. induction tup as [|v tup IH]; simpl; [done|].
  intros [Hv Hrest]%orb_false_iff. apply bool_decide_eq_false in Hv.
  rewrite filter_cons, decide_True by done. simpl. by rewrite IH.
Qed.

Lemma well_formed_new : well_formed new_tic_tac_toe_board.
Proof. by split. Qed.

(** A move of the game is carried out, and leads to a board of the game. *)
Lemma make_move_well_formed b index :
  well_formed b → legal b index →
  ∃ b', make_move b index = Ok b' ∧ well_formed b'.
Proof.
  intros [Hlen Hturn Hwin Hterm Hlast] [Hnt (i & -> & Hi)%elem_of_empty_spots].
  assert (i < length (tup b)) as Hlt by by eapply lookup_lt_Some.
  rewrite Hnt in Hterm. symmetry in Hterm.
  apply orb_false_iff in Hterm as [Hnone _].
  apply bool_decide_eq_false in Hnone.
  assert (winner b = None) as Hw by by destruct (winner b); [exfalso; apply Hnone|].
  rewrite Hw in Hwin.
  unfold make_move. rewrite make_move_tup by done.
  set (tup' := <[i:=Some (turn b)]> (tup b)).
  assert (length tup' = 9) as Hlen' by by unfold tup'; rewrite length_insert.
  destruct (find_winner_total tup' Hlen') as [w' Hw']. rewrite Hw'. simpl.
  eexists. split; [done|]. split; simpl; try done.
  - unfold tup'. rewrite filled_insert, Nat.even_succ, <- Nat.negb_even by done.
    by rewrite Hturn.
  - intros w ->. rewrite negb_involutive.
    destruct (decide (w = turn b)) as [|Hne]; [done|].
    apply find_winner_loop_Some in Hw' as (c & Hc & Hline).
    apply line_insert in Hline; [|done].
    by apply (find_winner_loop_None _ _ c w) in Hwin.
Qed.

Lemma legal_play_well_formed b indices b' :
  legal_play b indices b' → well_formed b → well_formed b'.
Proof.
  induction 1 as [|b i b1 indices b2 Hlegal Hmove _ IH]; [done|].
  intros Hwf. apply IH.
  destruct (make_move_well_formed b i Hwf Hlegal) as (b1' & Hmove' & Hwf').
  rewrite Hmove in Hmove'. by injection Hmove' as <-.
Qed.

Lemma well_formed_reward b :
  well_formed b → terminal b = true →
  reward b = Ok (outcome_reward b) ∧ winner b ≠ Some (turn b).
Proof.
  intros [Hlen Hturn Hwin Hterm Hlast] Ht.
  unfold reward, outcome_reward. rewrite Ht. simpl.
  destruct (winner b) as [w|] eqn:Hw.
  - specialize (Hlast w eq_refl). subst w.
    rewrite bool_decide_eq_false_2 by by destruct (turn b).
    rewrite bool_decide_eq_true_2 by by destruct (turn b).
    split; [done|]. by destruct (turn b).
  - rewrite Ht in Hterm. simpl in Hterm. symmetry in Hterm.
    apply negb_true_iff, filled_full in Hterm.
    rewrite Hterm, Hlen in Hturn. simpl in Hturn. rewrite Hturn.
    by rewrite bool_decide_eq_false_2, bool_decide_eq_false_2,
      bool_decide_eq_true_2 by done.
Qed.

Lemma reward_unit_interval b r : reward b = Ok r → (0 ≤ r ∧ r ≤ 1)%Qc.
Proof.
  unfold reward. destruct (negb (terminal b)); [done|].
  repeat (case_bool_decide; try done); intros [= <-]; by split.
Qed.

(** C10, for the boards of a game: on a terminal board reached from the
    initial board by moves of the game (each one [make_move] at an empty
    cell of a board that is not terminal), [reward] returns [0] when the
    board has a winner and [0.5] when it has none; it never returns [1],
    and the winner is never the player whose turn it is. *)
Theorem reward_of_finished_game indices b :
  legal_play new_tic_tac_toe_board indices b →
  terminal b = true →
  reward b = Ok (match winner b with Some _ => 0%Qc | None => Q2Qc (1 # 2) end)
  ∧ reward b ≠ Ok 1%Qc
  ∧ reward b ≠ Raise RewardUnreachable
  ∧ winner b ≠ Some (turn b).
Proof.
  intros Hplay Ht.
  pose proof (legal_play_well_formed _ _ _ Hplay well_formed_new) as Hwf.
  destruct (well_formed_reward b Hwf Ht) as [Hr Hw].
  split; [done|]. rewrite Hr. unfold outcome_reward.
  split; [|done]. by destruct (winner b).
Qed.
End TicTacToeProofs.

(** ** The theorems at work on games of tic-tac-toe *)

Module ExampleProofs.
Import TicTacToe TicTacToeSpec TicTacToeProofs Example.

Ltac by_evaluation := apply (bool_decide_unpack _); vm_cast_no_check I.

Ltac legal_move :=
  eapply legal_play_cons;
  [ split; [reflexivity | vm_compute; repeat constructor]
  | vm_compute; reflexivity | ].

Lemma endgame_reached :
  legal_play new_tic_tac_toe_board [0; 1; 2; 3; 4; 6; 5]%Z endgame.
Proof. repeat legal_move. apply legal_play_nil. Qed.

(** C1 as stated fails on a leaf that is terminal: no move is made, an
    even number, and [_simulate] returns [1 - reward], not [reward]. *)
Lemma simulate_inverts_at_terminal_leaf :
  play new_tic_tac_toe_board [0; 3; 1; 4; 2]%Z = Ok x_wins
  ∧ walk find_random_child is_terminal [] x_wins 0 x_wins
  ∧ reward x_wins = Ok 0%Qc
  ∧ _simulate find_random_child is_terminal reward [] x_wins = Ok 1%Qc
  ∧ _simulate find_random_child is_terminal reward [] x_wins
    ≠ Ok (if Nat.odd 0 then 1 - 0 else 0)%Qc.
Proof.
  split; [by vm_compute|]. split; [by constructor|]. split; [by vm_compute|].
  split; [by vm_compute|]. by vm_compute.
Qed.

(** A playout of six moves that [O] wins: the reward [0] of the final
    board comes back as [1]. *)
Lemma simulate_parity_witness :
  _simulate find_random_child is_terminal reward [0; 2; 0; 1; 3; 1]
    new_tic_tac_toe_board
  = Ok (if Nat.even 6 then 1 - 0 else 0)%Qc.
Proof.
  eapply simulate_parity.
  - repeat (eapply walk_move; [reflexivity | vm_compute; reflexivity |]).
    apply walk_here. reflexivity.
  - vm_compute. reflexivity.
Defined.

Lemma choose_best_child_witness :
  let cs := default ∅ (children (after 3) !! endgame) in
  ∃ c, choose find_random_child is_terminal (after 3) endgame 0
       = (Ok (Some c), after 3)
       ∧ c ∈ cs
       ∧ (∀ n, n ∈ cs → score_le (score (after 3) n) (score (after 3) c))
       ∧ (∀ n, n ∈ cs →
            score (after 3) n
            = if decide (getN (after 3) n = 0) then None
              else Some (getQ (after 3) n / Qc_of_nat (getN (after 3) n))%Qc)
       ∧ ((∃ n, n ∈ cs ∧ 0 < getN (after 3) n) → 0 < getN (after 3) c).
Proof.
  intros cs. apply choose_best_child.
  - reflexivity.
  - by_evaluation.
  - by_evaluation.
Defined.

Lemma select_frontier_first_witness :
  let cs := default ∅ (children (after 1) !! endgame) in
  ∃ n, n ∈ cs ∧ (n ∉ dom (children (after 1)))
       ∧ pop 0 (unexplored (after 1) cs) = Ok n
       ∧ _select_loop log2 isqrt 1%Qc 1 0 (after 1) [] endgame
         = Ok ([] ++ [endgame; n]).
Proof.
  intros cs.
  destruct (select_frontier_first log2 isqrt 1%Qc 0 (after 1)) as (Hfirst & _ & _).
  apply Hfirst; by_evaluation.
Defined.

Lemma uct_select_visits_witness :
  1 ≤ getN (after 4) endgame
  ∧ (∀ cs, children (after 4) !! endgame = Some cs →
       ∀ n, n ∈ cs → 1 ≤ getN (after 4) n)
  ∧ _uct_select log2 isqrt 1%Qc (after 4) endgame ≠ Raise LogDomain
  ∧ _uct_select log2 isqrt 1%Qc (after 4) endgame ≠ Raise DivisionByZero.
Proof.
  apply (uct_select_visits find_children find_random_child is_terminal reward).
  - apply (do_rollouts_reachable _ _ _ _ _ _ _ fresh (calls 4)).
    + apply reachable_fresh.
    + by_evaluation.
  - exists (default ∅ (children (after 4) !! endgame)).
    repeat split; by_evaluation.
Defined.

Lemma choose_terminal_or_unexpanded_witness :
  choose find_random_child is_terminal (after 1) x_wins 0
  = (Raise ChooseOnTerminal, after 1)
  ∧ choose find_random_child is_terminal fresh endgame 0
    = (find_random_child endgame 0, fresh).
Proof.
  split.
  - destruct (choose_terminal_or_unexpanded find_random_child is_terminal
                (after 1) x_wins 0) as [Hterminal _].
    apply Hterminal. reflexivity.
  - destruct (choose_terminal_or_unexpanded find_random_child is_terminal
                fresh endgame 0) as [_ Hunexpanded].
    apply Hunexpanded; [reflexivity|by_evaluation].
Defined.


Lemma reward_range_preserved_witness :
  0 < getN (after 6) endgame
  ∧ (0 ≤ getQ (after 6) endgame / Qc_of_nat (getN (after 6) endgame)
     ∧ getQ (after 6) endgame / Qc_of_nat (getN (after 6) endgame) ≤ 1)%Qc.
Proof.
  assert (0 < getN (after 6) endgame) as Hvisited by by_evaluation.
  split; [done|].
  apply (reward_range_preserved find_children find_random_child is_terminal
           reward log2 isqrt 1%Qc (calls 6) (Ok ())); [| |done].
  - intros s r _. apply reward_unit_interval.
  - by_evaluation.
Defined.

Lemma expand_idempotent_witness :
  endgame ∈ dom (children (after 1))
  ∧ _expand find_children (after 1) endgame = (Ok (), after 1)
  ∧ _expand (λ _, Raise MissingKey) (after 1) endgame = (Ok (), after 1).
Proof.
  assert (endgame ∈ dom (children (after 1))) as Hkey by by_evaluation.
  split; [done|]. split; by apply expand_idempotent.
Defined.

(** C10 as stated fails when [make_move] is called on a board that is
    already terminal: the board it returns is terminal, its winner is the
    player whose turn it is, and [reward] raises. *)
Lemma reward_raises_after_finished_game :
  play new_tic_tac_toe_board [0; 3; 1; 4; 2; 5]%Z = Ok o_plays_on
  ∧ terminal o_plays_on = true
  ∧ winner o_plays_on = Some (turn o_plays_on)
  ∧ reward o_plays_on = Raise RewardUnreachable
  ∧ reward o_plays_on ≠ Ok 0%Qc.
Proof. by vm_compute. Qed.

Lemma reward_of_finished_game_witness :
  reward x_wins
  = Ok (match winner x_wins with Some _ => 0%Qc | None => Q2Qc (1 # 2) end)
  ∧ reward x_wins ≠ Ok 1%Qc
  ∧ reward x_wins ≠ Raise RewardUnreachable
  ∧ winner x_wins ≠ Some (turn x_wins).
Proof.
  apply (reward_of_finished_game [0; 3; 1; 4; 2]%Z).
  - repeat legal_move. apply legal_play_nil.
  - reflexivity.
Defined.
End ExampleProofs.

(** ** Backpropagation over Python's numbers *)

Module Binary64Proofs.
Import SpecFloat Binary64.

(** *** Rounding to binary64 *)

Lemma digits2_pos_size p : digits2_pos p = Pos.size p.
Proof. induction p; simpl; congruence. Qed.

Lemma digits2_pos_iter p k :
  digits2_pos (Pos.iter xO p k) = (digits2_pos p + k)%positive.
Proof.
  induction k using Pos.peano_ind.
  - simpl. lia.
  - rewrite Pos.iter_succ. simpl. rewrite IHk. lia.
Qed.

Lemma Zpos_iter_xO p k : Zpos (Pos.iter xO p k) = (Zpos p * 2 ^ Zpos k)%Z.
Proof.
  induction k using Pos.peano_ind.
  - simpl. lia.
  - rewrite Pos.iter_succ, Pos2Z.inj_xO, IHk, Pos2Z.inj_succ, Z.pow_succ_r
      by lia.
    lia.
Qed.

Lemma digits2_pos_le p n :
  (0 ≤ n)%Z → (Zpos p < 2 ^ n)%Z → (Zpos (digits2_pos p) ≤ n)%Z.
Proof.
  intros Hn Hp. rewrite digits2_pos_size.
  pose proof (Pos.size_le p) as Hs.
  assert (2 ^ Zpos (Pos.size p) ≤ 2 * Zpos p)%Z as Hs'.
  { rewrite <- Pos2Z.inj_pow. change (2 * Zpos p)%Z with (Zpos p~0). lia. }
  destruct (Z_le_gt_dec (Zpos (Pos.size p)) n) as [|Hgt]; [done|].
  assert (2 ^ (n + 1) ≤ 2 ^ Zpos (Pos.size p))%Z
    by (apply Z.pow_le_mono_r; lia).
  rewrite Z.pow_add_r in * by lia. lia.
Qed.

Lemma digits2_pos_gt p n :
  (2 ^ n ≤ Zpos p)%Z → (n < Zpos (digits2_pos p))%Z.
Proof.
  intros Hp. rewrite digits2_pos_size.
  pose proof (Pos.size_gt p) as Hs.
  assert (Zpos p < 2 ^ Zpos (Pos.size p))%Z as Hs'.
  { rewrite <- Pos2Z.inj_pow. lia. }
  destruct (Z_lt_ge_dec n (Zpos (Pos.size p))) as [|Hge]; [done|].
  assert (2 ^ Zpos (Pos.size p) ≤ 2 ^ n)%Z by (apply Z.pow_le_mono_r; lia).
  lia.
Qed.

Lemma iter_pos_iter {A} (f : A → A) n x :
  SpecFloat.iter_pos f n x = Pos.iter f x n.
Proof.
  revert x. induction n as [n IH|n IH|]; intros x; simpl;
    [|by rewrite !IH|done].
  by rewrite !IH, <- !Pos.iter_swap.
Qed.

(** Shifting out zeros leaves nothing to round. *)
Lemma shr_1_iter m k :
  SpecFloat.iter_pos shr_1 k
    (Build_shr_record (Zpos (Pos.iter xO m k)) false false)
  = Build_shr_record (Zpos m) false false.
Proof.
  rewrite iter_pos_iter. induction k using Pos.peano_ind; [done|].
  rewrite (Pos.iter_succ_r k _ shr_1), (Pos.iter_succ k _ xO). exact IHk.
Qed.

(** Rounding a mantissa of 53 digits changes nothing. *)
Lemma binary_round_aux_53 sign m e :
  Zpos (digits2_pos m) = 53%Z → (-1074 ≤ e ≤ 971)%Z →
  binary_round_aux prec emax sign (Zpos m) e loc_Exact = S754_finite sign m e.
Proof.
  intros Hm He. unfold binary_round_aux, shr_fexp, Zdigits2. rewrite Hm.
  assert (fexp prec emax (53 + e) - e = 0)%Z as ->.
  { unfold fexp, emin, prec, emax. lia. }
  cbn [shr shr_record_of_loc shr_m shr_r shr_s loc_of_shr_record
       round_nearest_even].
  rewrite Hm.
  assert (fexp prec emax (53 + e) - e = 0)%Z as ->.
  { unfold fexp, emin, prec, emax. lia. }
  cbn [shr shr_m].
  by assert ((e <=? emax - prec)%Z = true) as ->
    by (apply Z.leb_le; unfold prec, emax; lia).
Qed.

(** A mantissa of at most 53 digits is shifted to the left, exactly. *)
Lemma binary_round_short sign p e :
  let d := Zpos (digits2_pos p) in
  (d ≤ 53)%Z → (-1074 ≤ e + d - 53 ≤ 971)%Z →
  ∃ m, binary_round prec emax sign p e = S754_finite sign m (e + d - 53)
       ∧ Zpos m = (Zpos p * 2 ^ (53 - d))%Z
       ∧ Zpos (digits2_pos m) = 53%Z.
Proof.
  intros d Hd He. unfold binary_round.
  assert (fexp prec emax (d + e) = e + d - 53)%Z as Hf.
  { unfold fexp, emin, prec, emax. lia. }
  fold d. rewrite Hf.
  assert (∃ m, shl_align p e (e + d - 53) = (m, (e + d - 53)%Z)
               ∧ Zpos m = (Zpos p * 2 ^ (53 - d))%Z
               ∧ Zpos (digits2_pos m) = 53%Z) as (m & -> & Hm & Hdm).
  { unfold shl_align.
    destruct (e + d - 53 - e)%Z as [|q|q] eqn:Hq; [|lia|].
    - exists p. split; [f_equal; lia|].
      replace (53 - d)%Z with 0%Z by lia. fold d. lia.
    - exists (Pos.iter xO p q). split; [done|].
      rewrite digits2_pos_iter, Zpos_iter_xO. fold d.
      replace (53 - d)%Z with (Zpos q) by lia. lia. }
  exists m. split; [|done]. apply binary_round_aux_53; [done|lia].
Qed.

(** A mantissa of 53 digits followed by zeros is shifted to the right,
    exactly. *)
Lemma binary_round_long sign m k q e :
  Zpos (digits2_pos m) = 53%Z → (0 ≤ k)%Z → (-1074 ≤ e + k ≤ 971)%Z →
  Zpos q = (Zpos m * 2 ^ k)%Z →
  binary_round prec emax sign q e = S754_finite sign m (e + k).
Proof.
  intros Hm Hk He Hq. destruct k as [| k |k]; [| |lia].
  { assert (q = m) as -> by lia. unfold binary_round.
    rewrite Hm.
    assert (fexp prec emax (53 + e) = e)%Z as ->.
    { unfold fexp, emin, prec, emax. lia. }
    unfold shl_align. rewrite Z.sub_diag, Z.add_0_r.
    apply binary_round_aux_53; [done|lia]. }
  assert (q = Pos.iter xO m k) as ->.
  { apply Pos2Z.inj. by rewrite Zpos_iter_xO. }
  unfold binary_round. rewrite digits2_pos_iter, Pos2Z.inj_add, Hm.
  assert (fexp prec emax (53 + Zpos k + e) = e + Zpos k)%Z as ->.
  { unfold fexp, emin, prec, emax. lia. }
  unfold shl_align.
  replace (e + Zpos k - e)%Z with (Zpos k) by lia.
  unfold binary_round_aux, shr_fexp, Zdigits2.
  rewrite digits2_pos_iter, Pos2Z.inj_add, Hm.
  assert (fexp prec emax (53 + Zpos k + e) - e = Zpos k)%Z as ->.
  { unfold fexp, emin, prec, emax. lia. }
  cbn [shr shr_record_of_loc]. rewrite shr_1_iter.
  cbn [shr_m shr_r shr_s loc_of_shr_record round_nearest_even Zdigits2].
  rewrite Hm.
  assert (fexp prec emax (53 + (e + Zpos k)) - (e + Zpos k) = 0)%Z as ->.
  { unfold fexp, emin, prec, emax. lia. }
  cbn [shr shr_m].
  by assert ((e + Zpos k <=? emax - prec)%Z = true) as ->
    by (apply Z.leb_le; unfold prec, emax; lia).
Qed.

(** [1 - (1 - f)] is [f] again for a float [f] from [0.5] up to [1.0]: both
    subtractions are exact. *)
Lemma flip_flip_upper_half f :
  upper_half f → SFsub prec emax one (SFsub prec emax one f) = f.
Proof.
  intros (m & -> & Hm).
  assert (Zpos (digits2_pos m) = 53%Z) as Hdm.
  { pose proof (digits2_pos_le m 53). pose proof (digits2_pos_gt m 52). lia. }
  assert (SFsub prec emax one (S754_finite false m (-53))
          = binary_normalize prec emax (2 ^ 53 - Zpos m) (-53) false) as ->
    by reflexivity.
  destruct (2 ^ 53 - Zpos m)%Z as [|p|p] eqn:Hp; [lia| |lia].
  unfold binary_normalize.
  pose proof (digits2_pos_le p 53) as Hd.
  destruct (binary_round_short false p (-53)) as (mz & -> & Hmz & Hdmz);
    [lia|lia|].
  set (d := Zpos (digits2_pos p)) in *.
  unfold SFsub, one.
  rewrite Z.min_r by lia.
  unfold shl_align at 2. rewrite Z.sub_diag. cbn [fst cond_Zopp].
  unfold shl_align.
  destruct (-53 + d - 53 - -52)%Z as [|k|k] eqn:Hk; [lia|lia|].
  cbn [fst]. rewrite Zpos_iter_xO.
  assert (4503599627370496 * 2 ^ Zpos k - Zpos mz = Zpos m * 2 ^ (53 - d))%Z
    as Hq.
  { rewrite Hmz. replace (Zpos k) with (53 - d + 1)%Z by lia.
    rewrite Z.pow_add_r by lia. lia. }
  rewrite Hq.
  destruct (Zpos m * 2 ^ (53 - d))%Z as [|q|q] eqn:Hq'; [lia| |lia].
  unfold binary_normalize.
  rewrite (binary_round_long false m (53 - d) q);
    [f_equal; lia|done|lia|lia|done].
Qed.

(** *** Python's numbers *)

Lemma float_of_int_small z :
  (Z.abs z < 2 ^ 53)%Z → ∃ f, float_of_int z = Ok f.
Proof.
  intros Hz. unfold float_of_int, binary_normalize.
  destruct z as [|p|p]; [by eexists| |].
  - pose proof (digits2_pos_le p 53).
    destruct (binary_round_short false p 0) as (m & -> & _); [lia|lia|].
    by eexists.
  - pose proof (digits2_pos_le p 53).
    destruct (binary_round_short true p 0) as (m & -> & _); [lia|lia|].
    by eexists.
Qed.

Lemma py_add_small a b : small a → small b → ∃ q, py_add a b = Ok q.
Proof.
  destruct a as [x|f], b as [y|g]; simpl; intros Ha Hb; try by eexists.
  - destruct (float_of_int_small x Ha) as [f ->]. by eexists.
  - destruct (float_of_int_small y Hb) as [g ->]. by eexists.
Qed.

(** [+] raises nothing but [OverflowError]. *)
Lemma py_add_outcome a b :
  match py_add a b with
  | Ok _ => True
  | Raise e => e = IntTooLarge
  | OutOfFuel => False
  end.
Proof.
  destruct a as [x|f], b as [y|g]; simpl; try done; unfold float_of_int;
    by destruct (binary_normalize _ _ _ _ _).
Qed.

(** [1 - r] raises nothing. *)
Lemma py_sub_one r :
  py_sub (Int 1) r
  = Ok match r with
       | Int z => Int (1 - z)
       | Float f => Float (SFsub prec emax one f)
       end.
Proof. by destruct r. Qed.

(** *** The loop *)

Section Backpropagation.
Context {State : Type} `{Countable State}.
Implicit Types (t : mcts State) (r q : number) (node s : State).

Lemma getN_visit node t s :
  getN (visit node t) s
  = if decide (s = node) then getN t node + 1 else getN t s.
Proof.
  unfold getN at 1, visit; simpl. destruct (decide (s = node)) as [->|Hne].
  - by rewrite lookup_insert_eq.
  - by rewrite lookup_insert_ne.
Qed.

Lemma getQ_visit node t s : getQ (visit node t) s = getQ t s.
Proof. done. Qed.

Lemma getN_visited_with node q t s :
  getN (visited_with node q t) s
  = if decide (s = node) then getN t node + 1 else getN t s.
Proof.
  unfold getN at 1, visited_with; simpl. destruct (decide (s = node)) as [->|Hne].
  - by rewrite lookup_insert_eq.
  - by rewrite lookup_insert_ne.
Qed.

Lemma getQ_visited_with node q t s :
  getQ (visited_with node q t) s = if decide (s = node) then q else getQ t s.
Proof.
  unfold getQ at 1, visited_with; simpl. destruct (decide (s = node)) as [->|Hne].
  - by rewrite lookup_insert_eq.
  - by rewrite lookup_insert_ne.
Qed.

Lemma add_reward_visit node r t :
  add_reward node r (visit node t)
  = match py_add (getQ t node) r with
    | Ok q => (Ok (), visited_with node q t)
    | Raise e => (Raise e, visit node t)
    | OutOfFuel => (OutOfFuel, visit node t)
    end.
Proof.
  unfold add_reward. rewrite getQ_visit.
  by destruct (py_add (getQ t node) r).
Qed.

Lemma backpropagate_last path node r t :
  _backpropagate (path ++ [node]) r t
  = match add_reward node r (visit node t) with
    | (Ok _, t') =>
        match py_sub (Int 1) r with
        | Ok r' => _backpropagate path r' t'
        | Raise e => (Raise e, t')
        | OutOfFuel => (OutOfFuel, t')
        end
    | failed => failed
    end.
Proof. unfold _backpropagate. by rewrite reverse_snoc. Qed.

Lemma backpropagate_last_Ok path node r r' q t :
  py_add (getQ t node) r = Ok q →
  py_sub (Int 1) r = Ok r' →
  _backpropagate (path ++ [node]) r t
  = _backpropagate path r' (visited_with node q t).
Proof.
  intros Hq Hr. by rewrite backpropagate_last, add_reward_visit, Hq, Hr.
Qed.

(** C2: [_backpropagate] walks the path from the leaf to the root.  At each
    node it counts one visit, adds the current reward to the node's total
    with Python's [+], and passes [1 - reward] on to the predecessor.  The
    subtraction raises nothing; the addition raises nothing but
    [OverflowError], after the visit has been counted, and nothing at all
    when both numbers are ints, or each is a float or an int below
    [2 ^ 53].  On a path [root, mid, leaf] of distinct nodes whose three
    additions return, the leaf's total grows by [r], the one of [mid] by
    [1 - r] and the one of the root by [1 - (1 - r)], the subtractions
    being Python's: exact on ints, rounded to the nearest float on floats.
    The root's increment is [r] again when [r] is an int, the float [0.0],
    or a float from [0.5] to [1.0]. *)
Theorem backpropagate_flips t r :
  _backpropagate [] r t = (Ok (), t)
  ∧ (∃ r', py_sub (Int 1) r = Ok r'
       ∧ r' = match r with
              | Int z => Int (1 - z)
              | Float f => Float (SFsub prec emax one f)
              end
       ∧ ∀ path node,
           _backpropagate (path ++ [node]) r t
           = match add_reward node r (visit node t) with
             | (Ok _, t') => _backpropagate path r' t'
             | failed => failed
             end)
  ∧ (∀ node,
       let step := add_reward node r (visit node t) in
       getN step.2 node = getN t node + 1
       ∧ children step.2 = children t
       ∧ (∀ s, s ≠ node →
            getN step.2 s = getN t s ∧ getQ step.2 s = getQ t s)
       ∧ match py_add (getQ t node) r with
         | Ok q => step.1 = Ok () ∧ getQ step.2 node = q
         | Raise e =>
             step.1 = Raise e ∧ e = IntTooLarge
             ∧ getQ step.2 node = getQ t node
         | OutOfFuel => False
         end)
  ∧ (∀ a, (∃ x y, a = Int x ∧ r = Int y) ∨ (small a ∧ small r) →
          ∃ q, py_add a r = Ok q)
  ∧ (∀ root mid leaf r1 r2 ql qm qr,
       root ≠ mid → mid ≠ leaf → root ≠ leaf →
       py_sub (Int 1) r = Ok r1 →
       py_sub (Int 1) r1 = Ok r2 →
       py_add (getQ t leaf) r = Ok ql →
       py_add (getQ t mid) r1 = Ok qm →
       py_add (getQ t root) r2 = Ok qr →
       ∃ t', _backpropagate [root; mid; leaf] r t = (Ok (), t')
             ∧ getQ t' leaf = ql ∧ getQ t' mid = qm ∧ getQ t' root = qr
             ∧ getN t' leaf = getN t leaf + 1
             ∧ getN t' mid = getN t mid + 1
             ∧ getN t' root = getN t root + 1
             ∧ ((∃ z, r = Int z) ∨ r = Float zero ∨ r = Float one
                ∨ (∃ f, r = Float f ∧ upper_half f) → r2 = r)).
Proof.
  split; [done|]. split.
  { eexists. split; [apply py_sub_one|]. split; [done|].
    intros path node. rewrite backpropagate_last, py_sub_one.
    by destruct (add_reward node r (visit node t)) as [[[]| |] t']. }
  split.
  { intros node step. unfold step. rewrite add_reward_visit.
    pose proof (py_add_outcome (getQ t node) r) as Hadd.
    destruct (py_add (getQ t node) r) as [q|e|]; simpl; [| |done].
    - rewrite getN_visited_with, getQ_visited_with, !decide_True by done.
      do 2 (split; [done|]). split; [|done]. intros s Hs.
      by rewrite getN_visited_with, getQ_visited_with, !decide_False by done.
    - rewrite getN_visit, getQ_visit, decide_True by done.
      do 2 (split; [done|]). split; [|done]. intros s Hs.
      by rewrite getN_visit, getQ_visit, decide_False by done. }
  split.
  { intros a [(x & y & -> & ->)|[Ha Hr]]; [by eexists|].
    by apply py_add_small. }
  intros root mid leaf r1 r2 ql qm qr Hrm Hml Hrl Hr1 Hr2 Hql Hqm Hqr.
  exists (visited_with root qr (visited_with mid qm (visited_with leaf ql t))).
  split.
  { change [root; mid; leaf] with ([root; mid] ++ [leaf]).
    rewrite (backpropagate_last_Ok _ _ _ _ _ _ Hql Hr1).
    change [root; mid] with ([root] ++ [mid]).
    rewrite (backpropagate_last_Ok _ _ _ r2 qm);
      [|by rewrite getQ_visited_with, decide_False|done].
    change [root] with ([] ++ [root]).
    assert (py_add (getQ (visited_with mid qm (visited_with leaf ql t)) root) r2 = Ok qr)
      as Hqr' by (by rewrite !getQ_visited_with, !decide_False).
    by rewrite (backpropagate_last_Ok _ _ _ _ _ _ Hqr' (py_sub_one r2)). }
  rewrite !getQ_visited_with, !getN_visited_with.
  repeat (rewrite decide_True by done) || (rewrite decide_False by done).
  do 6 (split; [done|]).
  rewrite py_sub_one in Hr1. injection Hr1 as <-.
  rewrite py_sub_one in Hr2. injection Hr2 as <-.
  intros [[z ->]|[->|[->|(f & -> & Hf)]]]; [|done|done|].
  - f_equal. lia.
  - f_equal. by apply flip_flip_upper_half.
Qed.
End Backpropagation.

(** *** On the path that selection takes *)

Import Example FurtherExample.

Ltac by_evaluation := apply (bool_decide_unpack _); vm_cast_no_check I.

(** C2 as stated fails for the reward [0.1]: the leaf is recorded with
    [0.1], the root, two flips later, with [0.09999999999999998]. *)
Lemma root_increment_is_rounded :
  selected = [endgame; o_corner; drawn]
  ∧ py_sub (Int 1) (Float tenth) = Ok (Float (SFsub prec emax one tenth))
  ∧ py_sub (Int 1) (Float (SFsub prec emax one tenth)) = Ok (Float below_tenth)
  ∧ ∃ t', _backpropagate selected (Float tenth) fresh = (Ok (), t')
          ∧ getQ t' drawn = Float tenth
          ∧ getQ t' endgame = Float below_tenth
          ∧ py_add (getQ fresh endgame) (Float tenth) = Ok (Float tenth)
          ∧ Ok (getQ t' endgame)
            ≠ py_add (getQ fresh endgame) (Float tenth).
Proof.
  split; [by_evaluation|]. split; [reflexivity|]. split; [reflexivity|].
  exists (_backpropagate selected (Float tenth) fresh).2.
  split; by_evaluation.
Qed.

(** The reward [0.75] on the same path: [0.75] for the leaf, [0.25] for
    the board between, [0.75] for the root. *)
Lemma backpropagate_flips_witness :
  ∃ t', _backpropagate [endgame; o_corner; drawn] (Float three_quarters) fresh
        = (Ok (), t')
        ∧ getQ t' drawn = Float three_quarters
        ∧ getQ t' o_corner = Float quarter
        ∧ getQ t' endgame = Float three_quarters
        ∧ getN t' drawn = 1 ∧ getN t' o_corner = 1 ∧ getN t' endgame = 1.
Proof.
  destruct (backpropagate_flips (fresh : mcts TicTacToeBoard)
              (Float three_quarters)) as (_ & _ & _ & _ & Hpath).
  destruct (Hpath endgame o_corner drawn (Float quarter)
              (Float three_quarters) (Float three_quarters) (Float quarter)
              (Float three_quarters))
    as (t' & Hrun & Hleaf & Hmid & Hroot & Hnl & Hnm & Hnr & _);
    [by_evaluation..|].
  by exists t'.
Defined.
End Binary64Proofs.

(** ** Further properties of the engine *)

Section EngineFurther.
Context {State : Type} `{Countable State}.
Variable find_children : State → outcome (gset State).
Variable find_random_child : State → nat → outcome (option State).
Variable is_terminal : State → bool.
Variable reward : State → outcome Qc.
Variable log : nat → Qc.
Variable sqrt : Qc → Qc.
Variable exploration_weight : Qc.

Implicit Types (t : mcts State) (node s : State) (path : list State) (r : Qc).

(** *** The shape of a selection path *)

Lemma select_loop_shape fuel k t node p :
  _select_loop log sqrt exploration_weight fuel k t [] node = Ok p →
  ∃ p' leaf,
    p = node :: p' ∧ last p = Some leaf
    ∧ (∀ l1 a b l2, p = l1 ++ a :: b :: l2 →
         ∃ cs, children t !! a = Some cs ∧ b ∈ cs)
    ∧ (leaf ∉ dom (children t) ∨ children t !! leaf = Some ∅).
Proof.
  revert node p. induction fuel as [|fuel IH]; intros node p Hp; [done|].
  rewrite select_step in Hp.
  assert (∀ (a b : State) l1 l2 x, [x] ≠ l1 ++ a :: b :: l2) as Hone.
  { intros a b [|? [|? ?]] l2 x; done. }
  destruct (children t !! node) as [cs|] eqn:Hcs.
  - case_decide as Hne; [|case_decide as Hu].
    + injection Hp as <-. exists [], node. do 2 (split; [done|]). split.
      * intros l1 a b l2 Heq. by apply Hone in Heq.
      * right. by rewrite Hcs, Hne.
    + apply bind_Ok in Hp as (node' & Huct & (q & Hq & [= <-])%bind_Ok).
      destruct (IH _ _ Hq) as (q' & leaf & -> & Hlast & Hchain & Hleaf).
      exists (node' :: q'), leaf. split; [done|]. split; [done|]. split; [|done].
      intros [|x l1] a b l2 Heq; simpl in Heq.
      * injection Heq as <- <- _. by apply uct_select_elem in Huct.
      * injection Heq as _ Heq. by eapply Hchain.
    + apply bind_Ok in Hp as (n & Hpop & [= <-]).
      destruct (pop_elem k _ Hu) as (n' & Hpop' & Hin).
      rewrite Hpop in Hpop'. injection Hpop' as <-.
      unfold unexplored in Hin. apply elem_of_difference in Hin as [Hn Hd].
      exists [n], n. do 2 (split; [done|]). split; [|by left].
      intros [|x l1] a b l2 Heq; simpl in Heq.
      * injection Heq as <- <- _. eauto.
      * injection Heq as _ Heq. by apply Hone in Heq.
  - injection Hp as <-. exists [], node. do 2 (split; [done|]). split.
    + intros l1 a b l2 Heq. by apply Hone in Heq.
    + left. by apply not_elem_of_dom.
Qed.

(** X1: the path that [_select] returns starts at the node it was called
    on, never repeats a state, follows registered children from one state
    to the next, and ends at a state that is not a key of [children] or
    whose registered set is empty. *)
Theorem select_path_shape fuel k t node path :
  _select log sqrt exploration_weight fuel k t node = Ok path →
  ∃ leaf,
    head path = Some node ∧ last path = Some leaf ∧ NoDup path
    ∧ (∀ l1 a b l2, path = l1 ++ a :: b :: l2 →
         ∃ cs, children t !! a = Some cs ∧ b ∈ cs)
    ∧ (leaf ∉ dom (children t) ∨ children t !! leaf = Some ∅).
Proof.
  intros Hp. pose proof (select_NoDup _ _ _ _ _ _ _ _ Hp) as Hnd.
  destruct (select_loop_shape _ _ _ _ _ Hp) as (p' & leaf & -> & ? & ? & ?).
  by exists leaf.
Qed.

(** *** What a rollout keeps and what it changes *)

Lemma expand_keeps t node res t' :
  _expand find_children t node = (res, t') →
  Q t' = Q t ∧ N t' = N t
  ∧ (children t' = children t
     ∨ ∃ cs, children t !! node = None ∧ find_children node = Ok cs
             ∧ res = Ok () ∧ children t' = <[node:=cs]> (children t)).
Proof.
  unfold _expand. destruct (children t !! node) eqn:Hn.
  - intros [= _ <-]. auto.
  - destruct (find_children node) as [cs| |] eqn:Hfc; intros [= <- <-]; simpl; auto.
    do 2 (split; [done|]). right. by exists cs.
Qed.

Lemma do_rollout_keeps t node o res t' :
  do_rollout find_children find_random_child is_terminal reward
    log sqrt exploration_weight t node o = (res, t') →
  (∀ s cs, children t !! s = Some cs → children t' !! s = Some cs)
  ∧ (∀ s, getN t s ≤ getN t' s).
Proof.
  unfold do_rollout.
  destruct (_select _ _ _ _ _ t node) as [path| |]; [|by intros [= _ <-]..].
  destruct (last path) as [leaf|]; [|by intros [= _ <-]].
  destruct (_expand find_children t leaf) as [ex t1] eqn:He.
  apply expand_keeps in He as (HQ & HN & Hch).
  assert (∀ s cs, children t !! s = Some cs → children t1 !! s = Some cs) as Hsub.
  { intros s cs Hs. destruct Hch as [->|(cs' & Hnone & _ & _ & ->)]; [done|].
    rewrite lookup_insert_ne; [done|]. intros ->. congruence. }
  assert (∀ s, getN t1 s = getN t s) as HN'.
  { intros s. unfold getN. by rewrite HN. }
  destruct ex as [[]| |]; [|intros [= _ <-]; split; [done|intros s; by rewrite HN']..].
  destruct (_simulate _ _ _ _ leaf) as [r| |];
    [|intros [= _ <-]; split; [done|intros s; by rewrite HN']..].
  intros [= _ <-]. split.
  - intros s cs Hs. rewrite children_backpropagate. by apply Hsub.
  - intros s. rewrite <- HN'. apply getN_backpropagate_le.
Qed.

(** X2: whatever a sequence of [do_rollout] calls does, and however it
    ends, an entry of [children] is never removed nor changed and no visit
    count decreases. *)
Theorem rollouts_never_forget t calls :
  let t' := (do_rollouts find_children find_random_child is_terminal reward
               log sqrt exploration_weight t calls).2 in
  (∀ s cs, children t !! s = Some cs → children t' !! s = Some cs)
  ∧ (∀ s, getN t s ≤ getN t' s).
Proof.
  revert t. induction calls as [|[node o] calls IH]; intros t; simpl; [done|].
  destruct (do_rollout _ _ _ _ _ _ _ t node o) as [ex t1] eqn:Hr.
  apply do_rollout_keeps in Hr as [Hch HN].
  destruct ex as [[]| |]; simpl; [|done..].
  destruct (IH t1) as [Hch' HN']. split.
  - intros s cs Hs. by apply Hch', Hch.
  - intros s. etrans; [apply HN|apply HN'].
Qed.


(** X4: a [do_rollout] call that returns adds one visit to each state of
    its selection path and changes the statistics of no other state; the
    keys of [children] are those it had and the leaf of the path. *)
Theorem complete_rollout_frame t node o t' :
  do_rollout find_children find_random_child is_terminal reward
    log sqrt exploration_weight t node o = (Ok (), t') →
  ∃ path leaf,
    rollout_path log sqrt exploration_weight t node o = Ok path
    ∧ last path = Some leaf
    ∧ dom (children t') = dom (children t) ∪ {[leaf]}
    ∧ (∀ s, s ∈ path → getN t' s = getN t s + 1)
    ∧ (∀ s, s ∉ path → getN t' s = getN t s ∧ getQ t' s = getQ t s).
Proof.
  intros (path & leaf & t1 & r & Hp & Hl & He & _ & _ & ->)%do_rollout_inv.
  exists path, leaf. do 2 (split; [done|]).
  pose proof (rollout_path_NoDup _ _ _ _ _ _ _ Hp) as Hnd.
  pose proof (expand_keeps _ _ _ _ He) as (HQ & HN & Hch).
  assert (∀ s, getN t1 s = getN t s) as HN' by (intros s; unfold getN; by rewrite HN).
  assert (∀ s, getQ t1 s = getQ t s) as HQ' by (intros s; unfold getQ; by rewrite HQ).
  split; [|split].
  - rewrite children_backpropagate.
    destruct (expand_children _ _ _ _ He) as (_ & _ & Hleaf & Hother).
    apply leibniz_equiv. intros x. rewrite elem_of_union, elem_of_singleton.
    destruct (decide (x = leaf)) as [->|Hx]; [by split; auto|].
    rewrite !elem_of_dom, (Hother x Hx). split; [auto|]. by intros [?|?].
  - intros s Hs. by rewrite getN_backpropagate, decide_True, HN'.
  - intros s Hs. rewrite getN_backpropagate, decide_False, HN' by done.
    split; [lia|]. rewrite getQ_backpropagate, HQ'.
    assert (reward_sum s (recorded path r) = 0%Qc) as ->; [|by rewrite Qcplus_0_r].
    unfold recorded. assert (s ∉ reverse path) as Hs' by by rewrite elem_of_reverse.
    clear -Hs'. revert r. induction (reverse path) as [|n l IH]; intros r; simpl; [done|].
    rewrite decide_False; [apply IH|]; set_solver.
Qed.

(** X5: in an engine state that complete rollouts lead to from a fresh
    engine, the set registered for a key of [children] is the set that
    [find_children] returns for that key. *)
Theorem registry_holds_find_children t node cs :
  reachable find_children find_random_child is_terminal reward
    log sqrt exploration_weight t →
  children t !! node = Some cs →
  find_children node = Ok cs.
Proof. apply reachable_children. Qed.

(** *** The choice of [_uct_select] *)

Lemma mapM_tagged_elem {A B} (f : A → outcome B) (l : list A) keys :
  mapM (λ a, f a ≫= λ b, Ok (a, b)) l = Ok keys →
  (∀ a b, (a, b) ∈ keys → a ∈ l ∧ f a = Ok b)
  ∧ (∀ a, a ∈ l → ∃ b, (a, b) ∈ keys).
Proof.
  revert keys. induction l as [|x l IH]; simpl; intros keys.
  - intros [= <-]. split; [by intros a b ?%not_elem_of_nil|by intros a ?%not_elem_of_nil].
  - intros (p & (b' & Hb' & [= <-])%bind_Ok & (ks & Hl & [= <-])%bind_Ok)%bind_Ok.
    destruct (IH _ Hl) as [Hin Hall]. split.
    + intros a b [[= -> ->]|Hab]%elem_of_cons.
      * split; [left|done].
      * destruct (Hin _ _ Hab). split; [by right|done].
    + intros a [->|Ha]%elem_of_cons.
      * exists b'. left.
      * destruct (Hall _ Ha) as [b Hb]. exists b. by right.
Qed.

Lemma mapM_Ok_all {A B} (f : A → outcome B) (l : list A) :
  (∀ a, a ∈ l → ∃ b, f a = Ok b) →
  ∃ bs, mapM f l = Ok bs ∧ length bs = length l.
Proof.
  induction l as [|x l IH]; intros Hall; simpl; [by exists []|].
  destruct (Hall x) as [b Hb]; [left|]. rewrite Hb. simpl.
  destruct IH as (bs & -> & Hlen); [intros a Ha; apply Hall; by right|].
  exists (b :: bs). simpl. by rewrite Hlen.
Qed.

Lemma max_from_Qc {A} (best : A * Qc) (l : list (A * Qc)) :
  ∃ kc, (max_from Qc_ltb best l, kc) ∈ best :: l
        ∧ ∀ n kn, (n, kn) ∈ best :: l → (kn ≤ kc)%Qc.
Proof.
  revert best. induction l as [|x l IH]; intros [b kb]; simpl.
  - exists kb. split; [left|]. intros n kn [= -> ->]%list_elem_of_singleton.
    apply Qcle_refl.
  - destruct x as [x kx]. simpl. destruct (Qc_ltb kb kx) eqn:Hlt.
    + destruct (IH (x, kx)) as (kc & Hin & Hmax). exists kc. split; [by right|].
      intros n kn [[= -> ->]|Hn]%elem_of_cons; [|by eapply Hmax].
      eapply Qcle_trans; [by apply Qc_ltb_true|]. apply (Hmax x kx). left.
    + destruct (IH (b, kb)) as (kc & Hin & Hmax). exists kc. split.
      * apply elem_of_cons in Hin as [->|?]; [left|by do 2 right].
      * intros n kn [[= -> ->]|[[= -> ->]|Hn]%elem_of_cons]%elem_of_cons.
        -- apply (Hmax b kb). left.
        -- eapply Qcle_trans; [by apply Qc_ltb_false|]. apply (Hmax b kb). left.
        -- apply (Hmax n kn). by right.
Qed.

(** X6: when [_uct_select] returns, it returns a registered child of the
    node whose UCT score, computed from the logarithm of the visits of the
    node, is at least the score of every registered child. *)
Theorem uct_select_maximises t node c :
  _uct_select log sqrt exploration_weight t node = Ok c →
  ∃ cs log_N_vertex kc,
    children t !! node = Some cs ∧ c ∈ cs
    ∧ 0 < getN t node ∧ log_N_vertex = log (getN t node)
    ∧ uct sqrt exploration_weight t log_N_vertex c = Ok kc
    ∧ ∀ n, n ∈ cs →
        ∃ kn, uct sqrt exploration_weight t log_N_vertex n = Ok kn ∧ (kn ≤ kc)%Qc.
Proof.
  unfold _uct_select. destruct (children t !! node) as [cs|]; [|done].
  case_bool_decide; [|done].
  intros (lg & Hlg & (keys & Hkeys & Hmax)%bind_Ok)%bind_Ok.
  unfold py_log in Hlg. case_decide as Hn; [done|]. injection Hlg as <-.
  destruct (mapM_tagged_elem _ _ _ Hkeys) as [Hin Hall].
  destruct keys as [|best keys]; [done|]. injection Hmax as <-.
  destruct (max_from_Qc best keys) as (kc & Hc & Hbest).
  destruct (Hin _ _ Hc) as [Hcin Hcu].
  exists cs, (log (getN t node)), kc.
  split; [done|]. split; [by apply elem_of_elements|]. split; [lia|].
  do 2 (split; [done|]).
  intros n [kn Hkn]%elem_of_elements%Hall. exists kn.
  split; [by apply Hin|by eapply Hbest].
Qed.

Lemma uct_select_Ok t node :
  (∀ n, 1 ≤ n → (0 ≤ log n)%Qc) →
  expanded_visited t → uct_invoked t node →
  ∃ c, _uct_select log sqrt exploration_weight t node = Ok c.
Proof.
  intros Hlog Hinv (cs & Hcs & Hne & Hu). apply unexplored_empty in Hu.
  assert (1 ≤ getN t node) as Hnode by (apply Hinv, elem_of_dom; eauto).
  unfold _uct_select. rewrite Hcs, bool_decide_eq_true_2 by done.
  unfold py_log. rewrite decide_False by lia. simpl.
  destruct (mapM_Ok_all (λ n, uct sqrt exploration_weight t (log (getN t node)) n
                              ≫= λ k, Ok (n, k)) (elements cs))
    as (keys & -> & Hlen).
  { intros n Hn%elem_of_elements.
    assert (1 ≤ getN t n) as Hvis by by apply Hinv, Hu.
    unfold uct, py_div. rewrite !decide_False by lia. simpl.
    unfold py_sqrt.
    assert (Qc_ltb (log (getN t node) / Qc_of_nat (getN t n)) 0 = false) as ->.
    { apply Qc_ltb_false. unfold Qcdiv. apply Qcmult_nonneg_nonneg; [by apply Hlog|].
      apply Qclt_le_weak, Qcinv_pos, Qc_of_nat_pos. lia. }
    simpl. by eexists. }
  simpl. destruct keys as [|best keys]; [|by eexists].
  simpl in Hlen. symmetry in Hlen. apply nil_length_inv in Hlen.
  by apply elements_empty_inv, leibniz_equiv in Hlen.
Qed.

(** X7: in an engine state that complete rollouts lead to from a fresh
    engine, and with a logarithm that is not negative from [1] on,
    [_uct_select] returns a child wherever [_select] calls it: it raises
    nothing. *)
Theorem uct_select_returns t node :
  (∀ n, 1 ≤ n → (0 ≤ log n)%Qc) →
  reachable find_children find_random_child is_terminal reward
    log sqrt exploration_weight t →
  uct_invoked t node →
  ∃ c cs, _uct_select log sqrt exploration_weight t node = Ok c
          ∧ children t !! node = Some cs ∧ c ∈ cs.
Proof.
  intros Hlog Hr%reachable_expanded_visited Hu.
  destruct (uct_select_Ok _ _ Hlog Hr Hu) as [c Hc].
  destruct (uct_select_elem _ _ _ _ _ _ Hc) as (cs & ? & ?). by exists c, cs.
Qed.

(** *** Visits of the root *)

Lemma do_rollouts_root_visits t0 root calls t :
  Forall (λ c, c.1 = root) calls →
  do_rollouts find_children find_random_child is_terminal reward
    log sqrt exploration_weight t0 calls = (Ok (), t) →
  getN t root = getN t0 root + length calls.
Proof.
  intros Hall. revert t0.
  induction Hall as [|[node o] calls Hnode _ IH]; intros t0.
  - intros [= <-]. simpl. lia.
  - simpl in Hnode. subst node. rewrite do_rollouts_cons.
    destruct (do_rollout _ _ _ _ _ _ _ t0 root o) as [[[]| |] t1] eqn:Hr; [|done..].
    intros Hrest. rewrite (IH _ Hrest). simpl.
    destruct (do_rollout_inv _ _ _ _ _ _ _ _ _ _ _ Hr)
      as (path & leaf & t1' & r & Hp & _ & He & _ & _ & ->).
    rewrite getN_backpropagate by by eapply rollout_path_NoDup.
    rewrite decide_True by by eapply select_nonempty.
    destruct (expand_statistics _ _ _ _ _ He) as [_ HN].
    unfold getN at 1. rewrite HN. fold (getN t0 root). lia.
Qed.

(** X8: after rollouts on a fresh engine that were all started at the same
    state and all returned, the visit count of that state is the number of
    rollouts. *)
Theorem root_visits_count_rollouts root calls t :
  Forall (λ c, c.1 = root) calls →
  do_rollouts find_children find_random_child is_terminal reward
    log sqrt exploration_weight fresh calls = (Ok (), t) →
  getN t root = length calls.
Proof.
  intros Hall Hr. by rewrite (do_rollouts_root_visits _ _ _ _ Hall Hr).
Qed.

(** *** The selection loop ends *)

Lemma select_loop_terminates (rank : State → nat) fuel k t node :
  (∀ s cs c, children t !! s = Some cs → c ∈ cs → rank c < rank s) →
  rank node < fuel →
  _select log sqrt exploration_weight fuel k t node ≠ OutOfFuel.
Proof.
  intros Hrank. unfold _select. revert node.
  induction fuel as [|fuel IH]; intros node Hlt; [lia|].
  rewrite select_step. destruct (children t !! node) as [cs|] eqn:Hcs; [|done].
  case_decide; [done|]. case_decide as Hu.
  - destruct (_uct_select _ _ _ t node) as [node'| |] eqn:Huct; simpl; [|done|].
    + destruct (uct_select_elem _ _ _ _ _ _ Huct) as (cs' & Hcs' & Hin).
      specialize (IH node').
      destruct (_select_loop _ _ _ fuel k t [] node'); simpl; [done..|].
      exfalso. apply IH; [|done]. pose proof (Hrank _ _ _ Hcs' Hin). lia.
    + unfold _uct_select in Huct. rewrite Hcs in Huct.
      case_bool_decide; [|done]. unfold py_log in Huct. case_decide; [done|].
      simpl in Huct.
      destruct (mapM _ _) as [keys| |] eqn:Hkeys; simpl in Huct.
      * by destruct keys.
      * done.
      * exfalso. clear -Hkeys. induction (elements cs) as [|x l IHl]; simpl in Hkeys; [done|].
        unfold uct, py_div, py_sqrt in Hkeys.
        repeat (case_decide || destruct (Qc_ltb _ _); simpl in Hkeys; try done).
        all: destruct (mapM _ l); simpl in Hkeys; try done; by apply IHl.
  - destruct (pop_elem k _ Hu) as (n & -> & _). done.
Qed.

(** X9: when every registered child has a smaller rank than its parent,
    for some rank into the naturals, the loop of [_select] started at a
    node of rank below its fuel does not run out of fuel. *)
Theorem select_terminates (rank : State → nat) fuel k t node :
  (∀ s cs c, children t !! s = Some cs → c ∈ cs → rank c < rank s) →
  rank node < fuel →
  _select log sqrt exploration_weight fuel k t node ≠ OutOfFuel.
Proof. apply select_loop_terminates. Qed.

(** *** Rollouts that return *)

Lemma select_never_raises fuel k t node e :
  (∀ n, 1 ≤ n → (0 ≤ log n)%Qc) →
  expanded_visited t →
  _select log sqrt exploration_weight fuel k t node ≠ Raise e.
Proof.
  intros Hlog Hinv. unfold _select. revert node.
  induction fuel as [|fuel IH]; intros node; [done|].
  rewrite select_step. destruct (children t !! node) as [cs|] eqn:Hcs; [|done].
  case_decide as Hne; [done|]. case_decide as Hu.
  - destruct (uct_select_Ok t node Hlog Hinv) as [c ->]; [by exists cs|].
    simpl. specialize (IH c).
    by destruct (_select_loop _ _ _ fuel k t [] c).
  - destruct (pop_elem k _ Hu) as (n & -> & _). done.
Qed.

Lemma select_path_closed (P : State → Prop) fuel k t node path :
  (∀ s cs c, children t !! s = Some cs → P s → c ∈ cs → P c) →
  P node →
  _select log sqrt exploration_weight fuel k t node = Ok path →
  Forall P path.
Proof.
  intros Hclosed. unfold _select. revert node path.
  induction fuel as [|fuel IH]; intros node path Hnode; [done|].
  rewrite select_step. destruct (children t !! node) as [cs|] eqn:Hcs.
  - case_decide as Hne; [|case_decide as Hu].
    + intros [= <-]. by repeat constructor.
    + intros (c & Hc & (p & Hp & [= <-])%bind_Ok)%bind_Ok.
      constructor; [done|]. apply (IH c); [|done].
      destruct (uct_select_elem _ _ _ _ _ _ Hc) as (cs' & Hcs' & Hin).
      rewrite Hcs in Hcs'. injection Hcs' as <-. by eapply Hclosed.
    + intros (n & Hpop & [= <-])%bind_Ok.
      destruct (pop_elem k _ Hu) as (n' & Hpop' & Hin).
      rewrite Hpop in Hpop'. injection Hpop' as <-.
      unfold unexplored in Hin. apply elem_of_difference in Hin as [Hn _].
      repeat constructor; [done|]. by eapply Hclosed.
  - intros [= <-]. by repeat constructor.
Qed.

(** A rollout returns on a domain whose good states ([P]) have children
    that are good states of smaller rank and playouts that end. *)
Lemma do_rollout_returns (P : State → Prop) (rank : State → nat) t node o :
  (∀ n, 1 ≤ n → (0 ≤ log n)%Qc) →
  (∀ s, P s → ∃ cs, find_children s = Ok cs ∧ ∀ c, c ∈ cs → P c ∧ rank c < rank s) →
  (∀ s, P s → ∃ r, _simulate find_random_child is_terminal reward (playout o) s = Ok r) →
  expanded_visited t →
  (∀ s cs, children t !! s = Some cs → P s ∧ find_children s = Ok cs) →
  P node → rank node < select_fuel o →
  ∃ t', do_rollout find_children find_random_child is_terminal reward
          log sqrt exploration_weight t node o = (Ok (), t')
        ∧ expanded_visited t'
        ∧ (∀ s cs, children t' !! s = Some cs → P s ∧ find_children s = Ok cs).
Proof.
  intros Hlog Hfc Hsim Hvis Hreg Hnode Hfuel.
  assert (∀ s cs c, children t !! s = Some cs → c ∈ cs → P c ∧ rank c < rank s) as Hstep.
  { intros s cs c Hs Hc. destruct (Hreg _ _ Hs) as [HPs Hfcs].
    destruct (Hfc s HPs) as (cs' & Hcs' & Hall). rewrite Hfcs in Hcs'.
    injection Hcs' as <-. by apply Hall. }
  destruct (_select log sqrt exploration_weight (select_fuel o) (pop_choice o) t node)
    as [path|e|] eqn:Hsel.
  2: { by apply select_never_raises in Hsel. }
  2: { apply (select_loop_terminates (λ s, rank s)) in Hsel; [done| |done].
       intros s cs c Hs Hc. by apply (Hstep s cs c). }
  assert (Forall P path) as Hpath.
  { eapply (select_path_closed P); [|done..]. intros s cs c Hs _ Hc. by apply (Hstep s cs c). }
  destruct (select_loop_shape _ _ _ _ _ Hsel) as (p' & leaf & -> & Hlast & _ & _).
  assert (P leaf) as Hleaf.
  { eapply Forall_forall; [done|]. by apply last_Some_elem_of. }
  destruct (Hfc leaf Hleaf) as (lcs & Hlcs & _).
  destruct (Hsim leaf Hleaf) as [r Hr].
  assert (∃ t1, _expand find_children t leaf = (Ok (), t1)
                ∧ ∀ s cs, children t1 !! s = Some cs → P s ∧ find_children s = Ok cs)
    as (t1 & He & Hreg1).
  { unfold _expand. destruct (children t !! leaf) eqn:Hk; [by eexists|].
    rewrite Hlcs. eexists. split; [done|]. simpl. intros s cs.
    destruct (decide (leaf = s)) as [<-|Hne].
    - rewrite lookup_insert_eq. by intros [= <-].
    - rewrite lookup_insert_ne by done. apply Hreg. }
  eexists. split; [|split].
  - unfold do_rollout. rewrite Hsel, Hlast, He, Hr. done.
  - eapply do_rollout_expanded_visited; [done|].
    unfold do_rollout. by rewrite Hsel, Hlast, He, Hr.
  - intros s cs. rewrite children_backpropagate. apply Hreg1.
Qed.

(** *** A move that wins at once *)

Lemma reward_sum_absent s r (l : list State) :
  s ∉ l → reward_sum s (flips r l) = 0%Qc.
Proof.
  revert r. induction l as [|n l IH]; intros r Hs; simpl; [done|].
  apply not_elem_of_cons in Hs as [Hne Hs]. rewrite decide_False by done.
  by apply IH.
Qed.

Lemma reachable_bounded t :
  (∀ s r, is_terminal s = true → reward s = Ok r → unit_interval r) →
  reachable find_children find_random_child is_terminal reward
    log sqrt exploration_weight t →
  bounded t.
Proof.
  intros Hrw. induction 1 as [|t node o t' _ IH Hr]; [apply bounded_fresh|].
  by eapply do_rollout_bounded.
Qed.

Lemma sure_win_average c t :
  is_terminal c = true → reward c = Ok 0%Qc → find_children c = Ok ∅ →
  reachable find_children find_random_child is_terminal reward
    log sqrt exploration_weight t →
  getQ t c = Qc_of_nat (getN t c).
Proof.
  intros Hterm Hrw Hfc. induction 1 as [|t node o t' Hreach IH Hr].
  { unfold getQ, getN, fresh. simpl. rewrite !lookup_empty. simpl.
    symmetry. apply Z2Qc_inj_0. }
  destruct (do_rollout_inv _ _ _ _ _ _ _ _ _ _ _ Hr)
    as (path & leaf & t1 & r & Hp & Hl & He & Hsim & _ & ->).
  pose proof (rollout_path_NoDup _ _ _ _ _ _ _ Hp) as Hnd.
  destruct (expand_statistics _ _ _ _ _ He) as [HQ HN].
  rewrite getQ_backpropagate, getN_backpropagate by done.
  unfold getQ at 1, getN at 1. rewrite HQ, HN. fold (getQ t c) (getN t c).
  rewrite IH. apply last_Some in Hl as [l1 ->].
  unfold recorded. rewrite reverse_snoc. simpl.
  apply NoDup_app in Hnd as (_ & Hdisj & _).
  destruct (decide (leaf = c)) as [->|Hne].
  - rewrite (decide_True (P := c ∈ l1 ++ [c])) by (apply elem_of_app; right; left).
    assert (c ∉ reverse l1) as Hc.
    { rewrite elem_of_reverse. intros Hin. apply (Hdisj c Hin). left. }
    rewrite (reward_sum_absent _ _ _ Hc), Qc_of_nat_succ.
    assert (r = 1%Qc) as ->; [|by rewrite Qcplus_0_r].
    unfold _simulate in Hsim.
    destruct (playout o); simpl in Hsim; rewrite Hterm, Hrw in Hsim;
      simpl in Hsim; by injection Hsim as <-.
  - destruct (decide (c ∈ l1)) as [Hin|Hin].
    + exfalso. apply list_elem_of_split in Hin as (l2 & l3 & ->).
      destruct (select_loop_shape _ _ _ _ _ Hp) as (_ & _ & _ & _ & Hchain & _).
      assert (∃ b l4, (l2 ++ c :: l3) ++ [leaf] = l2 ++ c :: b :: l4) as (b & l4 & Heq).
      { rewrite <- (assoc_L (++)). simpl. destruct l3 as [|b l3]; simpl; eauto. }
      destruct (Hchain _ _ _ _ Heq) as (cs & Hcs & Hb).
      apply (reachable_children find_children find_random_child is_terminal
               reward log sqrt exploration_weight) in Hcs; [|done].
      rewrite Hfc in Hcs. injection Hcs as <-. by apply not_elem_of_empty in Hb.
    + rewrite (decide_False (P := c ∈ l1 ++ [leaf])).
      2: { rewrite elem_of_app, list_elem_of_singleton. by intros [?|?]. }
      rewrite reward_sum_absent by by rewrite elem_of_reverse.
      by rewrite Qcplus_0_r, Nat.add_0_r.
Qed.

(** X18: let the rewards be between [0] and [1], the engine state come
    from complete rollouts on a fresh engine, and the node have a registered
    child that is terminal with reward [0] for the player to move there,
    has no children of its own and has been visited.  Then every visit of
    that child has recorded the reward [1], and [choose] returns a child
    whose average reward is [1]. *)
Theorem choose_keeps_sure_win t node cs c rnd :
  (∀ s r, is_terminal s = true → reward s = Ok r → (0 ≤ r ∧ r ≤ 1)%Qc) →
  reachable find_children find_random_child is_terminal reward
    log sqrt exploration_weight t →
  is_terminal node = false →
  children t !! node = Some cs → c ∈ cs →
  is_terminal c = true → reward c = Ok 0%Qc → find_children c = Ok ∅ →
  0 < getN t c →
  getQ t c = Qc_of_nat (getN t c)
  ∧ ∃ c', (choose find_random_child is_terminal t node rnd).1 = Ok (Some c')
          ∧ c' ∈ cs ∧ 0 < getN t c'
          ∧ (getQ t c' / Qc_of_nat (getN t c') = 1)%Qc.
Proof.
  intros Hrw Hreach Hnode Hcs Hc Hterm Hrc Hfc Hvis.
  pose proof (sure_win_average c t Hterm Hrc Hfc Hreach) as Hwin.
  split; [done|].
  assert (score t c = Some 1%Qc) as Hscore.
  { unfold score. rewrite decide_False by lia. rewrite Hwin. f_equal.
    unfold Qcdiv. apply Qcmult_inv_r. symmetry. apply Qclt_not_eq, Qc_of_nat_pos. lia. }
  unfold choose. rewrite Hnode, Hcs.
  destruct (elements cs) as [|best l] eqn:Hel.
  { apply elem_of_elements in Hc. rewrite Hel in Hc. by apply not_elem_of_nil in Hc. }
  simpl. destruct (max_from_score t best l) as [Hin Hmax].
  set (c' := max_from _ _ _) in *.
  assert (∀ n, n ∈ cs ↔ n ∈ best :: l) as Hmem.
  { intros n. by rewrite <- Hel, elem_of_elements. }
  exists c'. split; [done|]. split; [by apply Hmem|].
  specialize (Hmax c (proj1 (Hmem c) Hc)). rewrite Hscore in Hmax.
  unfold score in Hmax. case_decide as Hn; [done|]. split; [lia|].
  simpl in Hmax. apply Qcle_antisym; [|done].
  destruct (reachable_bounded t Hrw Hreach c') as [H0 HN].
  apply Qc_div_unit_interval; [done..|]. apply Qc_of_nat_pos. lia.
Qed.
End EngineFurther.

(** ** Further properties of the tic-tac-toe board *)

Module TicTacToeFurther.
Import TicTacToe TicTacToeSpec TicTacToeProofs.

(** *** [_find_winner] *)

Lemma find_winner_at_least_nine tup :
  9 ≤ length tup → ∃ w, _find_winner tup = Ok w.
Proof.
  intros Hlen. apply find_winner_loop_total.
  unfold _winning_combos. simpl. repeat constructor; simpl; lia.
Qed.

(** X10: on a tuple of at least nine cells [_find_winner] raises nothing;
    a player it returns holds the three cells of one of the eight
    combinations, and when it returns [None] no player holds all three
    cells of any combination.  On a tuple of fewer than three cells it
    raises [IndexError]. *)
Theorem find_winner_lines tup :
  (9 ≤ length tup →
   ∃ w, _find_winner tup = Ok w
        ∧ (∀ p, w = Some p → ∃ c, c ∈ _winning_combos ∧ line tup p c)
        ∧ (w = None → ∀ p c, c ∈ _winning_combos → ¬ line tup p c))
  ∧ (length tup < 3 → _find_winner tup = Raise IndexOutOfRange).
Proof.
  split.
  - intros [w Hw]%find_winner_at_least_nine. exists w. split; [done|]. split.
    + intros p ->. by apply find_winner_loop_Some.
    + intros -> p c Hc. by eapply find_winner_loop_None.
  - intros Hlen. unfold _find_winner, _winning_combos. simpl.
    unfold py_index.
    destruct (tup !! 0) eqn:H0; simpl; [|done].
    destruct (tup !! 1) eqn:H1; simpl; [|done].
    rewrite (lookup_ge_None_2 tup 2) by lia. done.
Qed.

(** *** [make_move] *)

Lemma clamp_cases len i :
  let n := Z.of_nat len in
  clamp len i
  = if decide (i < - n)%Z then 0
    else if decide (i < 0)%Z then Z.to_nat (i + n)
    else if decide (i < n)%Z then Z.to_nat i
    else len.
Proof.
  unfold clamp. destruct (Z.ltb_spec i 0); repeat case_decide; lia.
Qed.

(** X11: on a board of [n ≥ 9] cells [make_move] raises nothing, whatever
    the index and whatever the cell holds, and passes the turn on.  An
    index from [0] to [n - 1], or from [-n] to [-2] counted from the end,
    puts the mark of the player to move into that cell and keeps all other
    cells.  Any other index yields a longer tuple: [-1] puts the mark
    between all cells but the last and a copy of all [n] cells, an index
    from [n] on appends the mark and an index below [-n] prepends it. *)
Theorem make_move_by_index b index :
  let n := Z.of_nat (length (tup b)) in
  let mark := Some (turn b) in
  9 ≤ length (tup b) →
  ∃ b', make_move b index = Ok b'
        ∧ turn b' = negb (turn b)
        ∧ _find_winner (tup b') = Ok (winner b')
        ∧ tup b'
          = if decide (0 ≤ index < n)%Z then <[Z.to_nat index:=mark]> (tup b)
            else if decide (- n ≤ index ≤ -2)%Z then
              <[Z.to_nat (index + n):=mark]> (tup b)
            else if decide (index = -1)%Z then
              take (length (tup b) - 1) (tup b) ++ mark :: tup b
            else if decide (n ≤ index)%Z then tup b ++ [mark]
            else mark :: tup b.
Proof.
  intros n mark Hlen.
  set (tup' := slice_to (tup b) index ++ [mark] ++ slice_from (tup b) (index + 1)).
  assert (tup'
          = if decide (0 ≤ index < n)%Z then <[Z.to_nat index:=mark]> (tup b)
            else if decide (- n ≤ index ≤ -2)%Z then
              <[Z.to_nat (index + n):=mark]> (tup b)
            else if decide (index = -1)%Z then
              take (length (tup b) - 1) (tup b) ++ mark :: tup b
            else if decide (n ≤ index)%Z then tup b ++ [mark]
            else mark :: tup b) as Htup.
  { unfold tup', slice_to, slice_from. rewrite !clamp_cases. fold n.
    destruct (decide (0 ≤ index < n)%Z); [|destruct (decide (- n ≤ index ≤ -2)%Z)].
    - repeat case_decide; try lia;
        (symmetry; etrans; [apply (insert_take_drop _ (Z.to_nat index)); lia|]);
        simpl; repeat (f_equal; try lia).
    - repeat case_decide; try lia;
        (symmetry; etrans; [apply (insert_take_drop _ (Z.to_nat (index + n))); lia|]);
        simpl; repeat (f_equal; try lia).
    - destruct (decide (index = -1)%Z) as [->|]; [|destruct (decide (n ≤ index)%Z)].
      + repeat case_decide; try lia. simpl. repeat (f_equal; try lia).
      + repeat case_decide; try lia. by rewrite firstn_all, drop_all.
      + repeat case_decide; try lia;
          try replace (Z.to_nat (index + 1 + n)) with 0 by lia; done. }
  assert (9 ≤ length tup') as Hlen'.
  { rewrite Htup. repeat case_decide;
      rewrite ?length_insert, ?length_app, ?length_take; simpl; lia. }
  destruct (find_winner_at_least_nine tup' Hlen') as [w Hw].
  unfold make_move. fold mark. fold tup'. rewrite Hw. simpl.
  eexists. split; [done|]. simpl. by rewrite <- Htup.
Qed.

Lemma make_move_legal b index b' :
  well_formed b → legal b index → make_move b index = Ok b' →
  ∃ i, index = Z.of_nat i ∧ tup b !! i = Some None
       ∧ tup b' = <[i:=Some (turn b)]> (tup b)
       ∧ turn b' = negb (turn b)
       ∧ well_formed b'.
Proof.
  intros Hwf Hlegal Hmove.
  destruct (make_move_well_formed b index Hwf Hlegal) as (b1 & Hmove' & Hwf').
  rewrite Hmove in Hmove'. injection Hmove' as <-.
  destruct Hlegal as [_ (i & -> & Hi)%elem_of_empty_spots].
  exists i. do 2 (split; [done|]).
  assert (i < length (tup b)) as Hlt by by eapply lookup_lt_Some.
  unfold make_move in Hmove. rewrite make_move_tup in Hmove by done.
  apply bind_Ok in Hmove as (w & _ & [= <-]). done.
Qed.

(** *** The empty cells *)

Lemma spots_spec (g : nat → nat) (l : list (option bool)) :
  Inj (=) (=) g →
  let spots := omap (λ p : nat * option bool,
                       if bool_decide (p.2 = None) then Some (Z.of_nat p.1) else None)
                    (imap (λ i v, (g i, v)) l) in
  NoDup spots
  ∧ length spots + filled l = length l
  ∧ ∀ z, z ∈ spots → ∃ i, z = Z.of_nat (g i) ∧ l !! i = Some None.
Proof.
  revert g. induction l as [|v l IH]; intros g Hg.
  { simpl. split; [constructor|]. split; [done|]. by intros z ?%not_elem_of_nil. }
  destruct (IH (g ∘ S)) as (Hnd & Hlen & Hin).
  { intros i j Hij. simpl in Hij. apply Hg in Hij. lia. }
  unfold filled in *. rewrite filter_cons. cbn zeta in *. rewrite imap_cons.
  destruct v as [p|].
  - rewrite decide_True by done. unfold compose in *. simpl in *.
    split; [done|]. split; [rewrite <- Hlen; apply Nat.add_succ_r|].
    intros z (i & -> & Hi)%Hin. by exists (S i).
  - rewrite decide_False by (by intros Hx). unfold compose in *. simpl in *.
    split; [|split; [by rewrite <- Hlen|]].
    + constructor; [|done]. intros (i & Heq & _)%Hin.
      apply (inj Z.of_nat), Hg in Heq. lia.
    + intros z [->|(i & -> & Hi)%Hin]%elem_of_cons; [by exists 0|by exists (S i)].
Qed.

Lemma empty_spots_spec b :
  NoDup (empty_spots b)
  ∧ length (empty_spots b) + filled (tup b) = length (tup b).
Proof.
  destruct (spots_spec id (tup b) _) as (Hnd & Hlen & _). by split.
Qed.

Lemma well_formed_has_empty_spot b :
  well_formed b → terminal b = false → empty_spots b ≠ [].
Proof.
  intros [_ _ _ Hterm _] Ht. rewrite Ht in Hterm. symmetry in Hterm.
  apply orb_false_iff in Hterm as [_ Hex%negb_false_iff].
  apply existsb_exists in Hex as (v & Hv & ->%bool_decide_eq_true).
  apply list_elem_of_In, list_elem_of_lookup in Hv as [i Hi].
  intros Hnil. assert (Z.of_nat i ∈ empty_spots b) as Hin.
  { apply elem_of_empty_spots. by exists i. }
  rewrite Hnil in Hin. by apply not_elem_of_nil in Hin.
Qed.

Lemma mapM_Ok_Forall2 {A B} (f : A → outcome B) (l : list A) bs :
  mapM f l = Ok bs ↔ Forall2 (λ a b, f a = Ok b) l bs.
Proof.
  revert bs. induction l as [|a l IH]; intros bs; simpl.
  - split; [intros [= <-]; constructor|by intros ->%Forall2_nil_inv_l].
  - split.
    + intros (b & Hb & (bs' & Hl%IH & [= <-])%bind_Ok)%bind_Ok. by constructor.
    + intros (b & bs' & Hb & Hl%IH & ->)%Forall2_cons_inv_l.
      by rewrite Hb; simpl; rewrite Hl.
Qed.

Lemma find_children_game b :
  well_formed b →
  ∃ cs, find_children b = Ok cs
        ∧ (terminal b = true → cs = ∅)
        ∧ (terminal b = false →
           (∀ c, c ∈ cs ↔ ∃ i, legal b i ∧ make_move b i = Ok c)
           ∧ size cs = 9 - filled (tup b)
           ∧ cs ≠ ∅
           ∧ ∀ c, c ∈ cs → well_formed c).
Proof.
  intros Hwf. unfold find_children. destruct (terminal b) eqn:Ht.
  { exists ∅. by split. }
  destruct (mapM_Ok_all (make_move b) (empty_spots b)) as (bs & Hbs & Hlen).
  { intros i Hi. destruct (make_move_well_formed b i Hwf) as (c & ? & _); [by split|].
    by exists c. }
  rewrite Hbs. simpl. exists (list_to_set bs). split; [done|]. split; [done|].
  intros _. apply mapM_Ok_Forall2 in Hbs.
  assert (∀ c, c ∈ bs ↔ ∃ i, legal b i ∧ make_move b i = Ok c) as Hmem.
  { intros c. split.
    - intros Hc. apply list_elem_of_lookup in Hc as [j Hj].
      destruct (Forall2_lookup_r _ _ _ _ _ Hbs Hj) as (i & Hi & Hmove).
      exists i. split; [|done]. split; [done|]. by eapply list_elem_of_lookup_2.
    - intros (i & [_ Hi] & Hmove). apply list_elem_of_lookup in Hi as [j Hj].
      destruct (Forall2_lookup_l _ _ _ _ _ Hbs Hj) as (c' & Hc' & Hmove').
      rewrite Hmove in Hmove'. injection Hmove' as <-.
      by eapply list_elem_of_lookup_2. }
  destruct (empty_spots_spec b) as [Hnd Hcount].
  assert (NoDup bs) as Hndbs.
  { apply NoDup_alt. intros j1 j2 c Hj1 Hj2.
    destruct (Forall2_lookup_r _ _ _ _ _ Hbs Hj1) as (i1 & Hi1 & Hm1).
    destruct (Forall2_lookup_r _ _ _ _ _ Hbs Hj2) as (i2 & Hi2 & Hm2).
    assert (i1 = i2) as <-; [|by eapply NoDup_lookup].
    destruct (make_move_legal b i1 c Hwf) as (k1 & -> & Hk1 & Htup1 & _);
      [split; [done|by eapply list_elem_of_lookup_2]|done|].
    destruct (make_move_legal b i2 c Hwf) as (k2 & -> & Hk2 & Htup2 & _);
      [split; [done|by eapply list_elem_of_lookup_2]|done|].
    destruct (decide (k1 = k2)) as [->|Hne]; [done|]. exfalso.
    assert (tup c !! k1 = Some (Some (turn b))) as Hc1.
    { rewrite Htup1. apply list_lookup_insert_eq. by eapply lookup_lt_Some. }
    rewrite Htup2, list_lookup_insert_ne in Hc1 by done. congruence. }
  split; [intros c; by rewrite elem_of_list_to_set|].
  destruct Hwf as [Hlen9 ? ? ? ?].
  split; [rewrite size_list_to_set by done; lia|]. split.
  - pose proof (well_formed_has_empty_spot b) as Hne.
    intros Hempty. assert (size (list_to_set bs : gset TicTacToeBoard) = 0) as Hsz
      by by rewrite Hempty.
    rewrite size_list_to_set in Hsz by done.
    apply Hne; [by split|done|]. apply nil_length_inv. lia.
  - intros c (i & Hlegal & Hmove)%elem_of_list_to_set%Hmem.
    destruct (make_move_well_formed b i) as (c' & Hmove' & Hwf'); [by split|done|].
    rewrite Hmove in Hmove'. by injection Hmove' as <-.
Qed.

(** X12: on a board of a game that is not terminal, [find_children]
    returns the boards that [make_move] yields at the empty cells: one
    board for every empty cell, all different and all boards of the game,
    so the set is not empty.  On a terminal board it returns the empty
    set. *)
Theorem find_children_of_game_board b :
  well_formed b →
  ∃ cs, find_children b = Ok cs
        ∧ (terminal b = true → cs = ∅)
        ∧ (terminal b = false →
           (∀ c, c ∈ cs ↔ ∃ i, legal b i ∧ make_move b i = Ok c)
           ∧ size cs = 9 - filled (tup b)
           ∧ cs ≠ ∅
           ∧ ∀ c, c ∈ cs → well_formed c).
Proof. apply find_children_game. Qed.

Lemma choice_elem {A} rnd (l : list A) :
  l ≠ [] → ∃ x, choice rnd l = Ok x ∧ x ∈ l.
Proof.
  intros Hl. unfold choice.
  assert (rnd mod length l < length l) as Hlt.
  { apply Nat.mod_upper_bound. by intros ?%nil_length_inv. }
  apply lookup_lt_is_Some in Hlt as [x Hx]. rewrite Hx.
  exists x. split; [done|]. by eapply list_elem_of_lookup_2.
Qed.

Lemma find_random_child_legal b rnd :
  well_formed b → terminal b = false →
  ∃ i c, find_random_child b rnd = Ok (Some c)
         ∧ legal b i ∧ make_move b i = Ok c ∧ well_formed c.
Proof.
  intros Hwf Ht. unfold find_random_child. rewrite Ht.
  destruct (choice_elem rnd (empty_spots b)) as (i & -> & Hi).
  { by apply well_formed_has_empty_spot. }
  destruct (make_move_well_formed b i Hwf) as (c & Hc & Hwfc); [by split|].
  simpl. rewrite Hc. simpl. exists i, c.
  split; [done|]. split; [by split|]. by split.
Qed.

(** X13: on a board of a game [find_random_child] returns [None] exactly
    when the board is terminal; otherwise, whatever the draw, it returns one
    of the boards of [find_children]. *)
Theorem find_random_child_is_a_child b rnd :
  well_formed b →
  ∃ cs, find_children b = Ok cs
        ∧ (terminal b = true → find_random_child b rnd = Ok None)
        ∧ (terminal b = false →
           ∃ c, find_random_child b rnd = Ok (Some c) ∧ c ∈ cs).
Proof.
  intros Hwf.
  destruct (find_children_game b Hwf) as (cs & Hcs & _ & Hnt).
  exists cs. split; [done|]. split.
  - intros Ht. unfold find_random_child. by rewrite Ht.
  - intros Ht. destruct (Hnt Ht) as (Hmem & _).
    destruct (find_random_child_legal b rnd Hwf Ht) as (i & c & Hc & Hlegal & Hmove & _).
    exists c. split; [done|]. apply Hmem. by exists i.
Qed.

(** *** Playouts end *)

Lemma full_is_terminal b :
  well_formed b → filled (tup b) = length (tup b) → terminal b = true.
Proof.
  intros [_ _ _ Hterm _] Hfull. rewrite Hterm. apply orb_true_iff. right.
  apply negb_true_iff. apply not_true_is_false.
  intros (v & Hv & ->%bool_decide_eq_true)%existsb_exists.
  apply list_elem_of_In in Hv. unfold filled in Hfull.
  assert (length (filter (λ v : option bool, v ≠ None) (tup b)) < length (tup b)) as Hlt.
  { apply (length_filter_lt _ _ None); [done|]. by intros Hx. }
  lia.
Qed.

Lemma reward_values b :
  well_formed b → terminal b = true →
  ∃ r, reward b = Ok r ∧ (r = 0%Qc ∨ r = Q2Qc (1 # 2)).
Proof.
  intros Hwf Ht. destruct (well_formed_reward b Hwf Ht) as [Hr _].
  eexists. split; [done|]. unfold outcome_reward. destruct (winner b); auto.
Qed.

Lemma simulate_loop_game n b rnd inv :
  well_formed b →
  length (tup b) - filled (tup b) ≤ n → n ≤ length rnd →
  ∃ v, _simulate_loop find_random_child is_terminal reward rnd b inv = Ok v
       ∧ (v = 0%Qc ∨ v = Q2Qc (1 # 2) ∨ v = 1%Qc).
Proof.
  assert (∀ b rnd inv, well_formed b → terminal b = true →
            ∃ v, _simulate_loop find_random_child is_terminal reward rnd b inv = Ok v
                 ∧ (v = 0%Qc ∨ v = Q2Qc (1 # 2) ∨ v = 1%Qc)) as Hterm.
  { intros b0 rnd0 inv0 Hwf Ht.
    destruct (reward_values b0 Hwf Ht) as (r & Hr & Hv).
    exists (if inv0 then 1 - r else r)%Qc. split.
    - destruct rnd0; simpl; unfold is_terminal; by rewrite Ht, Hr.
    - destruct inv0, Hv as [->| ->]; auto. }
  revert b rnd inv. induction n as [|n IH]; intros b rnd inv Hwf Hn Hrnd.
  - apply Hterm; [done|]. apply full_is_terminal; [done|].
    unfold filled in *. pose proof (length_filter (λ v, v ≠ None) (tup b)). lia.
  - destruct (terminal b) eqn:Ht; [by apply Hterm|].
    destruct rnd as [|x rnd]; [simpl in Hrnd; lia|]. simpl.
    unfold is_terminal at 1. rewrite Ht.
    destruct (find_random_child_legal b x Hwf Ht)
      as (i & c & -> & Hlegal & Hmove & Hwfc).
    simpl.
    destruct (make_move_legal b i c Hwf Hlegal Hmove) as (k & _ & Hk & Htup & _).
    apply IH; [done| |simpl in Hrnd; lia].
    rewrite Htup, length_insert, filled_insert by done. lia.
Qed.

(** X14: a playout from a board of a game ends: with as many draws as the
    board has empty cells (nine always suffice) [_simulate] returns, and
    what it returns is [0], [0.5] or [1]. *)
Theorem simulate_game_returns b rnd :
  well_formed b →
  9 - filled (tup b) ≤ length rnd →
  ∃ v, _simulate find_random_child is_terminal reward rnd b = Ok v
       ∧ (v = 0%Qc ∨ v = Q2Qc (1 # 2) ∨ v = 1%Qc).
Proof.
  intros Hwf Hrnd. apply (simulate_loop_game (9 - filled (tup b))); [done| |done].
  destruct Hwf as [Hlen _ _ _ _]. lia.
Qed.

(** X17: [reward] returns nothing but [0] and [0.5] and never raises the
    error of an unknown winner: a board that is not terminal raises, a
    winner who is to move raises, any other winner gives [0], and without a
    winner the value is [0.5] when [O] is to move but [0] when [X] is. *)
Theorem reward_by_cases b :
  reward b ≠ Raise RewardUnknownWinner
  ∧ (∀ r, reward b = Ok r → r = 0%Qc ∨ r = Q2Qc (1 # 2))
  ∧ (terminal b = false → reward b = Raise RewardNonTerminal)
  ∧ (terminal b = true →
     (winner b = Some (turn b) → reward b = Raise RewardUnreachable)
     ∧ (winner b = Some (negb (turn b)) → reward b = Ok 0%Qc)
     ∧ (winner b = None → turn b = true → reward b = Ok 0%Qc)
     ∧ (winner b = None → turn b = false → reward b = Ok (Q2Qc (1 # 2)))).
Proof.
  unfold reward. destruct b as [tp [] [[]|] []]; simpl; repeat split;
    intros; simplify_eq; auto; try done.
Qed.

(** *** The engine on boards of a game *)

Section GameEngine.
Variable log : nat → Qc.
Variable sqrt : Qc → Qc.
Variable exploration_weight : Qc.

Lemma game_rollouts_return_from t calls :
  (∀ n, 1 ≤ n → (0 ≤ log n)%Qc) →
  expanded_visited t →
  (∀ s cs, children t !! s = Some cs → well_formed s ∧ find_children s = Ok cs) →
  Forall (λ c : TicTacToeBoard * oracle,
            well_formed c.1 ∧ 10 ≤ select_fuel c.2 ∧ 9 ≤ length (playout c.2))
         calls →
  ∃ t', do_rollouts find_children find_random_child is_terminal reward
          log sqrt exploration_weight t calls = (Ok (), t').
Proof.
  intros Hlog Hvis Hreg Hcalls. revert t Hvis Hreg.
  induction Hcalls as [|[b o] calls (Hwf & Hfuel & Htape) _ IH]; intros t Hvis Hreg.
  { by eexists. }
  simpl in *.
  destruct (do_rollout_returns find_children find_random_child is_terminal reward
              log sqrt exploration_weight well_formed
              (λ s, 9 - filled (tup s)) t b o) as (t1 & Hr & Hvis1 & Hreg1);
    try done.
  - intros s Hs. destruct (find_children_game s Hs) as (cs & Hcs & Hterm & Hnt).
    exists cs. split; [done|]. intros c Hc.
    destruct (terminal s) eqn:Ht.
    { rewrite Hterm in Hc by done. by apply not_elem_of_empty in Hc. }
    destruct (Hnt eq_refl) as (Hmem & _ & _ & Hwfc). split; [by apply Hwfc|].
    apply Hmem in Hc as (i & Hlegal & Hmove).
    destruct (make_move_legal s i c Hs Hlegal Hmove) as (k & _ & Hk & -> & _).
    rewrite filled_insert by done.
    destruct Hs as [Hlen _ _ _ _]. unfold filled in *.
    assert (length (filter (λ v : option bool, v ≠ None) (tup s)) < length (tup s)).
    { apply (length_filter_lt _ _ None); [by eapply list_elem_of_lookup_2|].
      by intros Hx. }
    lia.
  - intros s Hs.
    destruct (simulate_loop_game 9 s (playout o) true Hs) as (v & Hv & _); [|lia|].
    { destruct Hs as [Hlen9 _ _ _ _]. lia. }
    by exists v.
  - lia.
  - rewrite Hr. by apply IH.
Qed.

(** X15: on tic-tac-toe, with a logarithm that is not negative from [1]
    on, every series of [do_rollout] calls on a fresh engine returns, when
    each call starts at a board of a game and is granted ten rounds of the
    selection loop and nine draws for the playout: no call raises and none
    runs on. *)
Theorem game_rollouts_return calls :
  (∀ n, 1 ≤ n → (0 ≤ log n)%Qc) →
  Forall (λ c : TicTacToeBoard * oracle,
            well_formed c.1 ∧ 10 ≤ select_fuel c.2 ∧ 9 ≤ length (playout c.2))
         calls →
  ∃ t, do_rollouts find_children find_random_child is_terminal reward
         log sqrt exploration_weight fresh calls = (Ok (), t).
Proof.
  intros Hlog Hcalls. apply game_rollouts_return_from; [done| | |done].
  - intros s Hs. simpl in Hs. by rewrite dom_empty_L in Hs.
  - intros s cs Hs. simpl in Hs. by rewrite lookup_empty in Hs.
Qed.

(** X16: on a board of a game that is not terminal, in an engine state
    that complete rollouts lead to, [choose] returns a board that
    [make_move] yields at an empty cell of the board it was asked about,
    whether that board has been expanded or not. *)
Theorem choose_is_a_legal_move t b rnd :
  reachable find_children find_random_child is_terminal reward
    log sqrt exploration_weight t →
  well_formed b → terminal b = false →
  ∃ c i, (choose find_random_child is_terminal t b rnd).1 = Ok (Some c)
         ∧ legal b i ∧ make_move b i = Ok c.
Proof.
  intros Hreach Hwf Ht. unfold choose, is_terminal. rewrite Ht.
  destruct (children t !! b) as [cs|] eqn:Hcs.
  - apply (reachable_children find_children find_random_child is_terminal reward
             log sqrt exploration_weight) in Hcs; [|done].
    destruct (find_children_game b Hwf) as (cs' & Hcs' & _ & Hnt).
    rewrite Hcs in Hcs'. injection Hcs' as <-.
    destruct (Hnt Ht) as (Hmem & _ & Hne & _).
    destruct (elements cs) as [|best l] eqn:Hel.
    { by apply elements_empty_inv, leibniz_equiv in Hel. }
    simpl.
    destruct (max_from_score t best l) as [Hin _].
    set (c := max_from _ _ _) in *.
    assert (c ∈ cs) as Hc by by rewrite <- elem_of_elements, Hel.
    apply Hmem in Hc as (i & Hlegal & Hmove). by exists c, i.
  - simpl. destruct (find_random_child_legal b rnd Hwf Ht)
      as (i & c & Hc & Hlegal & Hmove & _).
    exists c, i. by rewrite Hc.
Qed.
End GameEngine.

(** X19: every board reached from the initial board by moves of the game
    has nine cells, has [X] to move exactly when an even number of cells is
    filled, carries the winner that [_find_winner] finds in its cells and a
    [terminal] flag that is set exactly when there is a winner or no empty
    cell, and a winner, if any, is the player who made the last move. *)
Theorem game_board_invariants indices b :
  legal_play new_tic_tac_toe_board indices b →
  length (tup b) = 9
  ∧ filled (tup b) = length indices
  ∧ turn b = Nat.even (length indices)
  ∧ _find_winner (tup b) = Ok (winner b)
  ∧ (terminal b = true ↔ winner b ≠ None ∨ filled (tup b) = 9)
  ∧ (∀ w, winner b = Some w → w = negb (turn b)).
Proof.
  intros Hplay.
  assert (∀ b0 b1 l, legal_play b0 l b1 → well_formed b0 →
            well_formed b1 ∧ filled (tup b1) = filled (tup b0) + length l) as Hgen.
  { clear. induction 1 as [|b0 i b1 l b2 Hlegal Hmove _ IH]; intros Hwf.
    - split; [done|]. simpl. lia.
    - destruct (make_move_legal b0 i b1 Hwf Hlegal Hmove) as (k & _ & Hk & Htup & _ & Hwf1).
      destruct (IH Hwf1) as [Hwf2 ->]. split; [done|].
      rewrite Htup, filled_insert by done. simpl. lia. }
  destruct (Hgen _ _ _ Hplay well_formed_new) as [[Hlen Hturn Hwin Hterm Hlast] Hfilled].
  change (filled (tup new_tic_tac_toe_board)) with 0 in Hfilled. simpl in Hfilled.
  split; [done|]. split; [done|]. split; [by rewrite Hturn, Hfilled|].
  split; [done|]. split; [|done].
  rewrite Hterm, orb_true_iff, bool_decide_eq_true, negb_true_iff. split.
  - intros [?|Hfull]; [by left|]. right. rewrite <- Hlen. by apply filled_full.
  - intros [?|Hfull]; [by left|]. right. apply not_true_is_false.
    intros (v & Hv & ->%bool_decide_eq_true)%existsb_exists.
    apply list_elem_of_In in Hv. unfold filled in Hfull.
    assert (length (filter (λ v : option bool, v ≠ None) (tup b)) < length (tup b)).
    { apply (length_filter_lt _ _ None); [done|]. by intros Hx. }
    lia.
Qed.
End TicTacToeFurther.

Module RenderingProofs.
Import TicTacToe Rendering.
Import Stdlib.Strings.Ascii.

Lemma to_char_mark v : to_char v = String (mark v) "".
Proof. by destruct v as [[]|]. Qed.

Lemma mark_inj v w : mark v = mark w → v = w.
Proof. by destruct v as [[]|], w as [[]|]. Qed.

Lemma to_pretty_string_nine c0 c1 c2 c3 c4 c5 c6 c7 c8 rest tu w te :
  to_pretty_string (Board (c0 :: c1 :: c2 :: c3 :: c4 :: c5 :: c6 :: c7 :: c8 :: rest) tu w te)
  = Ok (newline +:+ "  1 2 3" +:+ newline
        +:+ "1 " +:+ String (mark c0) (String " " (String (mark c1) (String " " (String (mark c2) ""))))
        +:+ newline
        +:+ "2 " +:+ String (mark c3) (String " " (String (mark c4) (String " " (String (mark c5) ""))))
        +:+ newline
        +:+ "3 " +:+ String (mark c6) (String " " (String (mark c7) (String " " (String (mark c8) ""))))
        +:+ newline).
Proof.
  unfold to_pretty_string, rows. simpl. rewrite !to_char_mark. reflexivity.
Qed.

(** X20: [to_pretty_string] raises [IndexError] on a board of fewer than
    nine cells.  On nine cells or more it returns a string of 33 characters
    that shows the first nine cells and nothing else: two such boards are
    rendered alike exactly when their first nine cells agree, whatever
    their further cells, turn, winner and terminal flag. *)
Theorem to_pretty_string_shows_nine_cells :
  (∀ b, length (tup b) < 9 → to_pretty_string b = Raise IndexOutOfRange)
  ∧ (∀ b, 9 ≤ length (tup b) →
       ∃ s, to_pretty_string b = Ok s ∧ String.length s = 33)
  ∧ (∀ b b', 9 ≤ length (tup b) → 9 ≤ length (tup b') →
       (to_pretty_string b = to_pretty_string b'
        ↔ take 9 (tup b) = take 9 (tup b'))).
Proof.
  split; [|split].
  - intros [tp tu w te] Hlen. simpl in Hlen.
    do 9 (destruct tp as [|? tp]; [reflexivity|]). simpl in Hlen. lia.
  - intros [tp tu w te] Hlen. simpl in Hlen.
    do 9 (destruct tp as [|? tp]; [simpl in Hlen; lia|]).
    rewrite to_pretty_string_nine. eexists. split; [done|]. reflexivity.
  - intros [tp tu w te] [tp' tu' w' te'] Hge Hge'.
    do 9 (destruct tp as [|? tp]; [simpl in Hge; lia|]).
    do 9 (destruct tp' as [|? tp']; [simpl in Hge'; lia|]).
    rewrite !to_pretty_string_nine. simpl. split.
    + intros Hs. injection Hs as H0 H1 H2 H3 H4 H5 H6 H7 H8.
      repeat match goal with H : mark _ = mark _ |- _ => apply mark_inj in H end.
      by subst.
    + by intros [= -> -> -> -> -> -> -> -> ->].
Qed.
End RenderingProofs.

(** ** The further theorems at work *)

Module FurtherExampleProofs.
Import TicTacToe TicTacToeSpec TicTacToeProofs TicTacToeFurther.
Import Example FurtherExample.

Ltac by_evaluation := apply (bool_decide_unpack _); vm_cast_no_check I.

Lemma log2_nonneg n : 1 ≤ n → (0 ≤ log2 n)%Qc.
Proof.
  intros _. unfold log2, Qc_of_nat.
  pose proof (proj1 (Z2Qc_inj_le 0 (Z.of_nat (Nat.log2 n)))) as Hle.
  rewrite Z2Qc_inj_0 in Hle. apply Hle. lia.
Qed.

Lemma endgame_well_formed : well_formed endgame.
Proof.
  eapply legal_play_well_formed; [apply ExampleProofs.endgame_reached|].
  apply well_formed_new.
Qed.

Lemma after_reachable n t :
  rollouts fresh (calls n) = (Ok (), t) →
  reachable find_children find_random_child is_terminal reward log2 isqrt 1%Qc t.
Proof. apply do_rollouts_reachable, reachable_fresh. Qed.

Lemma select_path_shape_witness :
  ∃ leaf,
    head selected = Some endgame ∧ last selected = Some leaf ∧ NoDup selected
    ∧ (∀ l1 a b l2, selected = l1 ++ a :: b :: l2 →
         ∃ cs, children (after 4) !! a = Some cs ∧ b ∈ cs)
    ∧ (leaf ∉ dom (children (after 4)) ∨ children (after 4) !! leaf = Some ∅).
Proof.
  apply (select_path_shape log2 isqrt 1%Qc 5 0). by_evaluation.
Defined.


Lemma complete_rollout_frame_witness :
  ∃ path leaf,
    rollout_path log2 isqrt 1%Qc (after 1) endgame (call 1).2 = Ok path
    ∧ last path = Some leaf
    ∧ dom (children (after 2)) = dom (children (after 1)) ∪ {[leaf]}
    ∧ (∀ s, s ∈ path → getN (after 2) s = getN (after 1) s + 1)
    ∧ (∀ s, s ∉ path →
         getN (after 2) s = getN (after 1) s ∧ getQ (after 2) s = getQ (after 1) s).
Proof.
  apply (complete_rollout_frame find_children find_random_child is_terminal reward).
  by_evaluation.
Defined.

Lemma registry_holds_find_children_witness :
  find_children endgame = Ok (default ∅ (children (after 3) !! endgame)).
Proof.
  apply (registry_holds_find_children find_children find_random_child is_terminal
           reward log2 isqrt 1%Qc (after 3)).
  - apply (after_reachable 3). by_evaluation.
  - by_evaluation.
Defined.

Lemma uct_select_maximises_witness :
  ∃ cs log_N_vertex kc,
    children (after 4) !! endgame = Some cs ∧ uct_choice ∈ cs
    ∧ 0 < getN (after 4) endgame ∧ log_N_vertex = log2 (getN (after 4) endgame)
    ∧ uct isqrt 1%Qc (after 4) log_N_vertex uct_choice = Ok kc
    ∧ ∀ n, n ∈ cs →
        ∃ kn, uct isqrt 1%Qc (after 4) log_N_vertex n = Ok kn ∧ (kn ≤ kc)%Qc.
Proof.
  apply uct_select_maximises. by_evaluation.
Defined.

Lemma uct_select_returns_witness :
  ∃ c cs, _uct_select log2 isqrt 1%Qc (after 4) endgame = Ok c
          ∧ children (after 4) !! endgame = Some cs ∧ c ∈ cs.
Proof.
  apply (uct_select_returns find_children find_random_child is_terminal reward).
  - apply log2_nonneg.
  - apply (after_reachable 4). by_evaluation.
  - exists (default ∅ (children (after 4) !! endgame)). repeat split; by_evaluation.
Defined.

Lemma root_visits_count_rollouts_witness :
  getN (after 6) endgame = length (calls 6).
Proof.
  apply (root_visits_count_rollouts find_children find_random_child is_terminal
           reward log2 isqrt 1%Qc).
  - repeat constructor.
  - by_evaluation.
Defined.

Lemma select_terminates_witness :
  _select log2 isqrt 1%Qc 5 0 (after 4) endgame ≠ OutOfFuel.
Proof.
  apply (select_terminates log2 isqrt 1%Qc empty_cells).
  - assert (map_Forall (λ s cs, set_Forall (λ c, empty_cells c < empty_cells s) cs)
              (children (after 4))) as Hall by by_evaluation.
    intros s cs c Hs Hc. by apply (Hall s cs Hs c).
  - by_evaluation.
Defined.

Lemma find_winner_lines_witness :
  ∃ w, _find_winner (tup x_wins) = Ok w
       ∧ (∀ p, w = Some p → ∃ c, c ∈ _winning_combos ∧ line (tup x_wins) p c)
       ∧ (w = None → ∀ p c, c ∈ _winning_combos → ¬ line (tup x_wins) p c).
Proof.
  destruct (find_winner_lines (tup x_wins)) as [Hnine _]. apply Hnine.
  simpl. lia.
Defined.

Lemma make_move_by_index_witness :
  ∃ b', make_move new_tic_tac_toe_board (-1) = Ok b'
        ∧ turn b' = false
        ∧ _find_winner (tup b') = Ok (winner b')
        ∧ tup b' = replicate 8 None ++ Some true :: replicate 9 None.
Proof.
  destruct (make_move_by_index new_tic_tac_toe_board (-1)) as (b' & ? & ? & ? & ?).
  - simpl. lia.
  - by exists b'.
Defined.

Lemma find_children_of_game_board_witness :
  ∃ cs, find_children endgame = Ok cs
        ∧ (terminal endgame = true → cs = ∅)
        ∧ (terminal endgame = false →
           (∀ c, c ∈ cs ↔ ∃ i, legal endgame i ∧ make_move endgame i = Ok c)
           ∧ size cs = 9 - filled (tup endgame)
           ∧ cs ≠ ∅
           ∧ ∀ c, c ∈ cs → well_formed c).
Proof. apply find_children_of_game_board, endgame_well_formed. Defined.

Lemma find_random_child_is_a_child_witness :
  ∃ cs, find_children endgame = Ok cs
        ∧ (terminal endgame = true → find_random_child endgame 3 = Ok None)
        ∧ (terminal endgame = false →
           ∃ c, find_random_child endgame 3 = Ok (Some c) ∧ c ∈ cs).
Proof. apply find_random_child_is_a_child, endgame_well_formed. Defined.

Lemma simulate_game_returns_witness :
  ∃ v, _simulate find_random_child is_terminal reward [0; 0] endgame = Ok v
       ∧ (v = 0%Qc ∨ v = Q2Qc (1 # 2) ∨ v = 1%Qc).
Proof.
  apply simulate_game_returns; [apply endgame_well_formed|]. simpl. lia.
Defined.

Lemma game_rollouts_return_witness :
  ∃ t, do_rollouts find_children find_random_child is_terminal reward
         log2 isqrt 1%Qc fresh (game_calls 8) = (Ok (), t).
Proof.
  apply game_rollouts_return; [apply log2_nonneg|].
  repeat constructor; simpl; (apply endgame_well_formed || lia).
Defined.

Lemma choose_is_a_legal_move_witness :
  ∃ c i, (choose find_random_child is_terminal (after 3) endgame 0).1 = Ok (Some c)
         ∧ legal endgame i ∧ make_move endgame i = Ok c.
Proof.
  apply (choose_is_a_legal_move log2 isqrt 1%Qc).
  - apply (after_reachable 3). by_evaluation.
  - apply endgame_well_formed.
  - reflexivity.
Defined.

Lemma choose_keeps_sure_win_witness :
  getQ after_win x_has_won = Qc_of_nat (getN after_win x_has_won)
  ∧ ∃ c', (choose find_random_child is_terminal after_win x_to_win 0).1 = Ok (Some c')
          ∧ c' ∈ default ∅ (children after_win !! x_to_win)
          ∧ 0 < getN after_win c'
          ∧ (getQ after_win c' / Qc_of_nat (getN after_win c') = 1)%Qc.
Proof.
  apply (choose_keeps_sure_win find_children find_random_child is_terminal reward
           log2 isqrt 1%Qc).
  - intros s r _. apply reward_unit_interval.
  - apply (do_rollouts_reachable _ _ _ _ _ _ _ fresh
             [(x_to_win, Oracle 10 0 [0]); (x_to_win, Oracle 10 0 [0])]).
    + apply reachable_fresh.
    + by_evaluation.
  - reflexivity.
  - by_evaluation.
  - by_evaluation.
  - reflexivity.
  - reflexivity.
  - reflexivity.
  - by_evaluation.
Defined.

Lemma game_board_invariants_witness :
  length (tup endgame) = 9
  ∧ filled (tup endgame) = length [0; 1; 2; 3; 4; 6; 5]%Z
  ∧ turn endgame = Nat.even (length [0; 1; 2; 3; 4; 6; 5]%Z)
  ∧ _find_winner (tup endgame) = Ok (winner endgame)
  ∧ (terminal endgame = true ↔ winner endgame ≠ None ∨ filled (tup endgame) = 9)
  ∧ (∀ w, winner endgame = Some w → w = negb (turn endgame)).
Proof. apply game_board_invariants, ExampleProofs.endgame_reached. Defined.
End FurtherExampleProofs.
